(** * censusdata.py: schema extraction and fixed-width record decoding

    A shallow embedding of [src/censusdata.py] (the Census 2000 SF1
    reader) and the properties of its schema builder, catalog builder,
    record decoder and query functions.

    Conventions of the embedding:
    - Python [bytes] are lists of [Byte.byte]; Python [str] values are
      lists of Unicode code points ([N]); Python [int]s are [Z].
    - [dict] and [OrderedDict] are insertion-ordered: they are association
      lists in which assigning to a present key replaces the value in place
      and assigning to an absent key appends.
    - The module-level dictionaries [CensusCodes] and [GeoFields] are passed
      and returned explicitly.
    - An exception is a value of [exn]; code that can raise returns an
      [outcome].  An exception that escapes ends the run, so the state of
      the globals at that moment is not kept.
    - [print] appends to a list of output events.
    - [str.lower] needs the Unicode case tables; it is a parameter [lower]
      of the functions that call it, and [ascii_lower] is its restriction
      to ASCII text.
    - [int] is applied by the source only to what [[0-9]+] or [[0-9]{3}]
      matched; it is modelled on digit sequences, without the interpreter's
      optional limit on the number of digits. *)

From Stdlib Require Import Strings.Byte Strings.String Strings.Ascii.
From Stdlib Require Import List ZArith NArith Lia Bool Arith.
From Stdlib Require Import Sorting.Sorted.
Import ListNotations.

Set Implicit Arguments.

Local Open Scope Z_scope.

(** ** Python values *)

Definition bytes := list byte.
Definition str := list N.

(** ASCII literals. *)
Definition B (s : string) : bytes := list_byte_of_string s.
Definition U (s : string) : str := map Byte.to_N (list_byte_of_string s).

Definition str_eq_dec : forall a b : str, {a = b} + {a <> b} :=
  list_eq_dec N.eq_dec.

(** The keys that occur in the program's dictionaries. *)
Inductive key : Type :=
| KStr (s : str)
| KInt (z : Z).

Inductive exn : Type :=
| KeyError (k : key)
| UnicodeDecodeError
| AttributeError.

Inductive outcome (A : Type) : Type :=
| Returned (a : A)
| Raised (e : exn).

Arguments Returned {A} a.
Arguments Raised {A} e.

Definition bind {A C : Type} (m : outcome A) (f : A -> outcome C) : outcome C :=
  match m with
  | Returned a => f a
  | Raised e => Raised e
  end.

Notation "x <- m ;; f" := (bind m (fun x => f))
  (at level 61, m at next level, right associativity).

(** A [for] loop whose body can raise: the first exception ends the loop. *)
Fixpoint for_each {A S : Type} (body : A -> S -> outcome S) (xs : list A) (s : S)
  : outcome S :=
  match xs with
  | [] => Returned s
  | x :: xs' => s' <- body x s ;; for_each body xs' s'
  end.

(** ** Insertion-ordered dictionaries *)

Section Dict.
Variables K V : Type.
Variable K_eq_dec : forall a b : K, {a = b} + {a <> b}.

Definition dict := list (K * V).

Definition keys (d : dict) : list K := map fst d.

(** [d[k]], [None] standing for the KeyError of a missing key. *)
Fixpoint dict_get (k : K) (d : dict) : option V :=
  match d with
  | [] => None
  | (k', v) :: d' => if K_eq_dec k k' then Some v else dict_get k d'
  end.

(** [k in d] *)
Definition dict_mem (k : K) (d : dict) : bool :=
  match dict_get k d with Some _ => true | None => false end.

(** [d[k] = v] *)
Fixpoint dict_set (k : K) (v : V) (d : dict) : dict :=
  match d with
  | [] => [(k, v)]
  | (k', v') :: d' =>
      if K_eq_dec k k' then (k', v) :: d' else (k', v') :: dict_set k v d'
  end.
End Dict.

Arguments dict_get {K V} K_eq_dec k d.
Arguments dict_mem {K V} K_eq_dec k d.
Arguments dict_set {K V} K_eq_dec k v d.
Arguments keys {K V} d.

(** ** Sequences *)

(** [s[a:b]] with Python's treatment of negative and out-of-range bounds. *)
Definition slice_index (n i : Z) : Z :=
  if i <? 0 then Z.max 0 (i + n) else Z.min i n.

Definition slice {A : Type} (s : list A) (a b : Z) : list A :=
  let n := Z.of_nat (length s) in
  let a' := slice_index n a in
  let b' := slice_index n b in
  firstn (Z.to_nat (b' - a')) (skipn (Z.to_nat a') s).

Section Seq.
Variable A : Type.
Variable A_eq_dec : forall a b : A, {a = b} + {a <> b}.

Fixpoint startswith (s p : list A) {struct p} : bool :=
  match p, s with
  | [], _ => true
  | _ :: _, [] => false
  | c :: p', d :: s' => if A_eq_dec c d then startswith s' p' else false
  end.

Definition endswith (s p : list A) : bool := startswith (rev s) (rev p).

(** [p in s] for strings: [p] occurs in [s] as a contiguous run. *)
Fixpoint contains (s p : list A) : bool :=
  startswith s p ||
  match s with
  | [] => false
  | _ :: s' => contains s' p
  end.
End Seq.

(** ** bytes methods *)

Definition byte_in (lo hi : N) (b : byte) : bool :=
  (lo <=? Byte.to_N b)%N && (Byte.to_N b <=? hi)%N.

Definition is_byte (n : N) (b : byte) : bool := (Byte.to_N b =? n)%N.

(** The ASCII whitespace that [bytes.strip] removes: tab, newline, vertical
    tab, form feed, carriage return, space. *)
Definition is_space (b : byte) : bool := byte_in 9 13 b || is_byte 32 b.

Fixpoint lstrip (s : bytes) : bytes :=
  match s with
  | [] => []
  | c :: s' => if is_space c then lstrip s' else s
  end.

Definition strip (s : bytes) : bytes := rev (lstrip (rev (lstrip s))).

(** [s.split(b'\n')] *)
Fixpoint split_nl (s : bytes) : list bytes :=
  match s with
  | [] => [[]]
  | c :: s' =>
      if is_byte 10 c then [] :: split_nl s'
      else match split_nl s' with
           | [] => [[c]]
           | l :: ls => (c :: l) :: ls
           end
  end.

(** [int(s)] on a run of decimal digits. *)
Definition int_of_digits (ds : list N) : Z :=
  fold_left (fun acc d => 10 * acc + (Z.of_N d - 48)) ds 0.

Definition int_bytes (s : bytes) : Z := int_of_digits (map Byte.to_N s).

(** [bytes.decode()]: strict UTF-8. *)
Definition is_cont (b : byte) : bool := byte_in 128 191 b.

Definition cont_bits (b : byte) : N := (Byte.to_N b - 128)%N.

Fixpoint decode (s : bytes) : outcome str :=
  match s with
  | [] => Returned []
  | b0 :: s1 =>
      let n0 := Byte.to_N b0 in
      if (n0 <? 128)%N then
        r <- decode s1 ;; Returned (n0 :: r)
      else if byte_in 194 223 b0 then
        match s1 with
        | b1 :: s2 =>
            if is_cont b1 then
              r <- decode s2 ;;
              Returned (((n0 - 192) * 64 + cont_bits b1)%N :: r)
            else Raised UnicodeDecodeError
        | _ => Raised UnicodeDecodeError
        end
      else if byte_in 224 239 b0 then
        match s1 with
        | b1 :: b2 :: s3 =>
            let lo := if is_byte 224 b0 then 160%N else 128%N in
            let hi := if is_byte 237 b0 then 159%N else 191%N in
            if byte_in lo hi b1 && is_cont b2 then
              r <- decode s3 ;;
              Returned (((n0 - 224) * 4096 + cont_bits b1 * 64 + cont_bits b2)%N :: r)
            else Raised UnicodeDecodeError
        | _ => Raised UnicodeDecodeError
        end
      else if byte_in 240 244 b0 then
        match s1 with
        | b1 :: b2 :: b3 :: s4 =>
            let lo := if is_byte 240 b0 then 144%N else 128%N in
            let hi := if is_byte 244 b0 then 143%N else 191%N in
            if byte_in lo hi b1 && is_cont b2 && is_cont b3 then
              r <- decode s4 ;;
              Returned (((n0 - 240) * 262144 + cont_bits b1 * 4096
                         + cont_bits b2 * 64 + cont_bits b3)%N :: r)
            else Raised UnicodeDecodeError
        | _ => Raised UnicodeDecodeError
        end
      else Raised UnicodeDecodeError
  end.

(** [str.lower] on text whose letters are all ASCII. *)
Definition ascii_lower (s : str) : str :=
  map (fun c => if (65 <=? c)%N && (c <=? 90)%N then (c + 32)%N else c) s.

(** ** The fragment of [re] that the patterns use

    Character classes with greedy bounded or unbounded repetition, greedy
    optional groups, capture groups and concatenation, matched by
    backtracking: the longest repetition is tried first and shortened
    while the rest of the pattern fails. *)

Section Regex.
Variable A : Type.

Inductive regex : Type :=
| Rep (p : A -> bool) (lo : nat) (hi : option nat)
| Opt (r : regex)
| Grp (n : nat) (r : regex)
| Cat (r1 r2 : regex).

(** The groups that took part in a match, most recent first. *)
Definition captures := list (nat * list A).

Definition room (hi : option nat) : bool :=
  match hi with
  | Some O => false
  | _ => true
  end.

Fixpoint rep {R : Type} (p : A -> bool) (lo : nat) (hi : option nat)
    (s : list A) (k : list A -> option R) {struct s} : option R :=
  let stop := match lo with O => k s | S _ => None end in
  match s with
  | [] => stop
  | c :: s' =>
      if p c && room hi then
        match rep p (Nat.pred lo) (option_map Nat.pred hi) s' k with
        | Some r => Some r
        | None => stop
        end
      else stop
  end.

Fixpoint rmatch {R : Type} (r : regex) (s : list A) (caps : captures)
    (k : list A -> captures -> option R) : option R :=
  match r with
  | Rep p lo hi => rep p lo hi s (fun s' => k s' caps)
  | Opt r1 =>
      match rmatch r1 s caps k with
      | Some x => Some x
      | None => k s caps
      end
  | Grp n r1 =>
      rmatch r1 s caps
        (fun s' caps' =>
           k s' ((n, firstn (length s - length s') s) :: caps'))
  | Cat r1 r2 => rmatch r1 s caps (fun s' caps' => rmatch r2 s' caps' k)
  end.

(** [re.match(r, s)]: anchored at the start of [s], not at its end. *)
Definition re_match (r : regex) (s : list A) : option captures :=
  rmatch r s [] (fun _ caps => Some caps).

(** [m.group(n)]; [None] when the group took no part in the match. *)
Fixpoint group (n : nat) (m : captures) : option (list A) :=
  match m with
  | [] => None
  | (i, g) :: m' => if Nat.eqb i n then Some g else group n m'
  end.
End Regex.

Arguments Rep {A} p lo hi.
Arguments Opt {A} r.
Arguments Grp {A} n r.
Arguments Cat {A} r1 r2.
Arguments re_match {A} r s.
Arguments group {A} n m.

Infix "@@" := Cat (at level 60, right associativity).

Definition star {A} (p : A -> bool) : regex A := Rep p 0 None.
Definition plus {A} (p : A -> bool) : regex A := Rep p 1 None.
Definition one {A} (p : A -> bool) : regex A := Rep p 1 (Some 1%nat).

(** Byte classes. *)
Definition upper : byte -> bool := byte_in 65 90.
Definition digit : byte -> bool := byte_in 48 57.
Definition alnum (b : byte) : bool := digit b || upper b.
(** [.] matches every byte but the newline. *)
Definition dot (b : byte) : bool := negb (is_byte 10 b).
Definition chr (c : byte) : regex byte := one (Byte.eqb c).

Definition sp : byte := " "%byte.
Definition quote : byte := "'"%byte.
Definition equals : byte := "="%byte.

(** [pat] of [codesFromZipFile] (source line 34): a run of spaces; group 1,
    one of [A-Z], three of [0-9], three or four of [0-9A-Z]; an equals sign
    and an apostrophe; a run of spaces; group 2, a greedy run of any bytes
    but newlines; an apostrophe. *)
Definition pat : regex byte :=
  star (Byte.eqb sp)
  @@ Grp 1 (one upper @@ Rep digit 3 (Some 3%nat) @@ Rep alnum 3 (Some 4%nat))
  @@ chr equals @@ chr quote
  @@ star (Byte.eqb sp)
  @@ Grp 2 (star dot)
  @@ chr quote.

(** [labelpat] (source line 80): optional group 1, the letters LABEL and a
    space; group 2, a run of [A-Z0-9], possibly empty; an equals sign
    and an apostrophe; group 3, a greedy run of any bytes but newlines; an
    apostrophe. *)
Definition labelpat : regex byte :=
  Opt (Grp 1 (chr "L" @@ chr "A" @@ chr "B" @@ chr "E" @@ chr "L" @@ chr sp))
  @@ Grp 2 (star alnum)
  @@ chr equals @@ chr quote
  @@ Grp 3 (star dot)
  @@ chr quote.

(** [fieldspat] (source line 81): group 1, a non-empty run of [A-Z0-9]; a
    space, a dollar sign, a space; group 2, a non-empty run of digits; a
    hyphen; group 3, a non-empty run of digits. *)
Definition fieldspat : regex byte :=
  Grp 1 (plus alnum)
  @@ chr sp @@ chr "$" @@ chr sp
  @@ Grp 2 (plus digit)
  @@ chr "-"
  @@ Grp 3 (plus digit).

(** The pattern on member names (source line 44), on [str]: the letters s
    and f; group 1, three of [0-9]; any character but a newline; the
    letters s, a, s. *)
Definition cp (c : N) : regex N := one (N.eqb c).
Definition cp_digit (c : N) : bool := (48 <=? c)%N && (c <=? 57)%N.
Definition cp_dot (c : N) : bool := negb (c =? 10)%N.

Definition filepat : regex N :=
  cp 115 @@ cp 102
  @@ Grp 1 (Rep cp_digit 3 (Some 3%nat))
  @@ one cp_dot
  @@ cp 115 @@ cp 97 @@ cp 115.

(** [m.group(n).decode()]; a group that took no part is [None], which has
    no [decode]. *)
Definition group_decode (n : nat) (m : captures byte) : outcome str :=
  match group n m with
  | Some g => decode g
  | None => Raised AttributeError
  end.

(** ** The program *)

(** A value of [GeoFields]: the dictionary with the keys ['name'], and
    ['start'] and ['end'] once set. *)
Record geofield : Type := {
  name : str;
  start : option Z;
  end_ : option Z
}.

Definition GeoFields := dict str geofield.
Definition code_dict := dict str str.
Definition CensusCodes := dict Z code_dict.

(** [d[k]] as an expression: a missing key raises. *)
Definition getitem {K V} (dec : forall a b : K, {a = b} + {a <> b})
    (mk : K -> key) (k : K) (d : dict K V) : outcome V :=
  match dict_get dec k d with
  | Some v => Returned v
  | None => Raised (KeyError (mk k))
  end.

Definition get_str {V} : str -> dict str V -> outcome V :=
  getitem str_eq_dec KStr.
Definition get_int {V} : Z -> dict Z V -> outcome V :=
  getitem Z.eq_dec KInt.

Definition field_start (f : geofield) : outcome Z :=
  match start f with
  | Some a => Returned a
  | None => Raised (KeyError (KStr (U "start")))
  end.

Definition field_end (f : geofield) : outcome Z :=
  match end_ f with
  | Some b => Returned b
  | None => Raised (KeyError (KStr (U "end")))
  end.

Definition group_bytes (n : nat) (m : captures byte) : outcome bytes :=
  match group n m with
  | Some g => Returned g
  | None => Raised AttributeError
  end.

(** The body of the loop of [parse_geo_sas_lines] (source lines 83-103).
    In an assignment the right-hand side is evaluated before the
    subscripted target. *)
Definition geo_sas_line (line : bytes) (G : GeoFields) : outcome GeoFields :=
  let line := strip line in
  match re_match labelpat line with
  | Some m =>
      code <- group_decode 2 m ;;
      nm <- group_decode 3 m ;;
      Returned
        (dict_set str_eq_dec code {| name := nm; start := None; end_ := None |} G)
  | None =>
      match re_match fieldspat line with
      | Some m =>
          code <- group_decode 1 m ;;
          g2 <- group_bytes 2 m ;;
          let a := int_bytes g2 - 1 in
          f <- get_str code G ;;
          let G1 :=
            dict_set str_eq_dec code
              {| name := name f; start := Some a; end_ := end_ f |} G in
          g3 <- group_bytes 3 m ;;
          let b := int_bytes g3 in
          f1 <- get_str code G1 ;;
          Returned
            (dict_set str_eq_dec code
               {| name := name f1; start := start f1; end_ := Some b |} G1)
      | None => Returned G
      end
  end.

Definition parse_geo_sas_lines (lines : list bytes) (G : GeoFields)
  : outcome GeoFields :=
  for_each geo_sas_line lines G.

(** The five entries every [code_dict] starts with (source lines 48-59). *)
Definition header_code_dict : code_dict :=
  dict_set str_eq_dec (U "LOGRECNO") (U "Logical Record Number")
    (dict_set str_eq_dec (U "CIFSN")
       (U "Characteristic Iteration File Sequence Number")
       (dict_set str_eq_dec (U "CHARITER") (U "Characteristic Iteration")
          (dict_set str_eq_dec (U "STUSAB") (U "State/U.S.-Abbreviation (USPS)")
             (dict_set str_eq_dec (U "FILEID") (U "File Identification") [])))).

(** The body of the loop over [saslines] (source lines 63-67). *)
Definition saslines_line (line : bytes) (cd : code_dict) : outcome code_dict :=
  match re_match pat line with
  | Some m =>
      pcode <- group_decode 1 m ;;
      desc <- group_decode 2 m ;;
      Returned (dict_set str_eq_dec pcode desc cd)
  | None => Returned cd
  end.

(** Source lines 48-67: the [code_dict] of one document. *)
Definition code_dict_of (saslines : list bytes) : outcome code_dict :=
  for_each saslines_line saslines header_code_dict.

(** The two module-level dictionaries. *)
Record globals : Type := {
  census_codes : CensusCodes;
  geo_fields : GeoFields
}.

(** What [parse_geo_line] prints in its handler: the code and the value
    of [GeoFields[code]]. *)
Inductive event : Type :=
| PrintKeyError (code : str) (f : geofield).

(** The [try] body of [parse_geo_line] (source line 148), up to the
    assignment. *)
Definition geo_slice (line : str) (G : GeoFields) (code : str) : outcome str :=
  f <- get_str code G ;;
  a <- field_start f ;;
  f' <- get_str code G ;;
  b <- field_end f' ;;
  Returned (slice line a b).

Fixpoint geo_line_loop (line : str) (G : GeoFields) (codes : list str)
    (d : dict str str) : outcome (dict str str) * list event :=
  match codes with
  | [] => (Returned d, [])
  | code :: codes' =>
      match geo_slice line G code with
      | Returned v => geo_line_loop line G codes' (dict_set str_eq_dec code v d)
      | Raised (KeyError _) =>
          (* except KeyError: print, break *)
          match get_str code G with
          | Returned f => (Returned d, [PrintKeyError code f])
          | Raised e => (Raised e, [])
          end
      | Raised e => (Raised e, [])
      end
  end.

Definition parse_geo_line (line : str) (G : GeoFields)
  : outcome (dict str str) * list event :=
  geo_line_loop line G (keys G) [].

Definition file_for_code_loop (code : str) (cat : CensusCodes)
  : list Z -> outcome (option Z) :=
  fix loop (filenos : list Z) : outcome (option Z) :=
    match filenos with
    | [] => Returned None
    | fileno :: filenos' =>
        cd <- get_int fileno cat ;;
        if dict_mem str_eq_dec code cd then Returned (Some fileno)
        else loop filenos'
    end.

(** [None] is the function's result for a code in no file. *)
Definition file_for_code (code : str) (cat : CensusCodes) : outcome (option Z) :=
  file_for_code_loop code cat (keys cat).

Section Lower.
Variable lower : str -> str.

(** The body of the loop over the members of the archive (source lines
    36-71); [read] is [zf.read]. *)
Definition zip_member (read : str -> bytes) (nm : str) (st : globals)
  : outcome globals :=
  if negb (endswith N.eq_dec (lower nm) (U ".sas")) then Returned st
  else if str_eq_dec nm (U "sf1geo.sas") then
    G <- parse_geo_sas_lines (split_nl (read nm)) (geo_fields st) ;;
    Returned {| census_codes := census_codes st; geo_fields := G |}
  else
    match re_match filepat (lower nm) with
    | None => Returned st
    | Some filematch =>
        match group 1 filematch with
        | None => Raised AttributeError
        | Some g =>
            let fileno := int_of_digits g in
            cd <- code_dict_of (split_nl (read nm)) ;;
            Returned {| census_codes :=
                          dict_set Z.eq_dec fileno cd (census_codes st);
                        geo_fields := geo_fields st |}
        end
    end.

(** [namelist] is [zf.namelist()]. *)
Definition codesFromZipFile (namelist : list str) (read : str -> bytes)
    (st : globals) : outcome globals :=
  for_each (zip_member read) namelist st.

(** The inner loop of [codes_for_description] (source lines 120-122). *)
Definition description_loop (desc : str) (cat : CensusCodes) (fileno : Z)
    (pcode : str) (codes : list (str * str)) : outcome (list (str * str)) :=
  cd <- get_int fileno cat ;;
  d <- get_str pcode cd ;;
  if contains N.eq_dec (lower d) desc then
    cd' <- get_int fileno cat ;;
    d' <- get_str pcode cd' ;;
    Returned (codes ++ [(pcode, d')])
  else Returned codes.

Definition codes_for_description (desc : str) (cat : CensusCodes)
  : outcome (list (str * str)) :=
  let desc := lower desc in
  for_each
    (fun fileno codes =>
       cd <- get_int fileno cat ;;
       for_each (description_loop desc cat fileno) (keys cd) codes)
    (keys cat) [].
End Lower.

(** ** Definitions used to state the properties *)

(** What a successful match says about the text it consumed: [matches r w
    c c'] when [r] can consume exactly [w], turning the captures [c] into
    [c']. *)
Inductive matches {A : Type} : regex A -> list A -> captures A -> captures A -> Prop :=
| matches_rep p lo hi w c :
    forallb p w = true ->
    (lo <= length w)%nat ->
    (forall h, hi = Some h -> (length w <= h)%nat) ->
    matches (Rep p lo hi) w c c
| matches_opt r w c c' :
    matches r w c c' -> matches (Opt r) w c c'
| matches_skip r c :
    matches (Opt r) [] c c
| matches_grp n r w c c' :
    matches r w c c' -> matches (Grp n r) w c ((n, w) :: c')
| matches_cat r1 r2 w1 w2 c c1 c2 :
    matches r1 w1 c c1 -> matches r2 w2 c1 c2 ->
    matches (r1 @@ r2) (w1 ++ w2) c c2.

(** Code-point classes of a field code. *)
Definition cp_upper (c : N) : bool := (65 <=? c)%N && (c <=? 90)%N.
Definition cp_alnum (c : N) : bool := cp_digit c || cp_upper c.

(** One letter, three digits, then three or four letters or digits. *)
Definition code_shape (s : str) : bool :=
  match s with
  | c0 :: d1 :: d2 :: d3 :: rest =>
      cp_upper c0 && cp_digit d1 && cp_digit d2 && cp_digit d3
      && forallb cp_alnum rest
      && ((length rest =? 3)%nat || (length rest =? 4)%nat)
  | _ => false
  end.

(** Line [l] assigns description [d] to code [c] in a file-type document. *)
Definition extracts (l : bytes) (c d : str) : Prop :=
  exists m, re_match pat l = Some m
            /\ group_decode 1 m = Returned c /\ group_decode 2 m = Returned d.

(** The assignments of a document, in line order. *)
Definition line_pairs (l : bytes) : list (str * str) :=
  match re_match pat l with
  | Some m =>
      match group_decode 1 m, group_decode 2 m with
      | Returned c, Returned d => [(c, d)]
      | _, _ => []
      end
  | None => []
  end.

Definition sas_pairs (saslines : list bytes) : list (str * str) :=
  flat_map line_pairs saslines.

(** The elements of [l] that are not in [seen], each once, in the order of
    their first occurrence. *)
Fixpoint first_seen (seen l : list str) : list str :=
  match l with
  | [] => []
  | x :: l' =>
      if in_dec str_eq_dec x seen then first_seen seen l'
      else x :: first_seen (seen ++ [x]) l'
  end.

(** Line [l] is a label assignment for code [c]. *)
Definition declares (l : bytes) (c : str) : Prop :=
  exists m, re_match labelpat (strip l) = Some m
            /\ group_decode 2 m = Returned c.

(** Line [l] is a byte-range declaration for code [c]. *)
Definition field_decl (l : bytes) (c : str) : Prop :=
  exists m, re_match fieldspat (strip l) = Some m
            /\ group_decode 1 m = Returned c.

(** A descriptor with both offsets. *)
Definition has_range (f : geofield) (a b : Z) : Prop :=
  start f = Some a /\ end_ f = Some b.

Definition ascii_bytes (s : bytes) : Prop :=
  forall b, In b s -> (Byte.to_N b < 128)%N.

Definition LABEL_ : bytes := B "LABEL ".

Definition header_codes : list str :=
  [U "FILEID"; U "STUSAB"; U "CHARITER"; U "CIFSN"; U "LOGRECNO"].

(** The catalog of a run: every entry of [CensusCodes] begins with the
    five header codes and has distinct codes, and the file numbers are
    distinct. *)
Definition catalog_ok (cat : CensusCodes) : Prop :=
  NoDup (keys cat)
  /\ forall fileno cd,
      In (fileno, cd) cat -> firstn 5 (keys cd) = header_codes /\ NoDup (keys cd).

(** The entries of [cd] whose lowered description contains [desc]. *)
Definition matching (lower : str -> str) (desc : str) (cd : code_dict)
  : list (str * str) :=
  filter (fun p => contains N.eq_dec (lower (snd p)) desc) cd.

(** The assignments [d[k] = v] for the pairs of [ps], in order. *)
Definition assign_all (ps : list (str * str)) (d : dict str str) : dict str str :=
  fold_left (fun d p => dict_set str_eq_dec (fst p) (snd p) d) ps d.

(** The text of [line] between the offsets of the descriptor of [code]. *)
Definition geo_value (line : str) (G : GeoFields) (code : str) : str :=
  match dict_get str_eq_dec code G with
  | Some {| start := Some a; end_ := Some b |} => slice line a b
  | _ => []
  end.

Definition geo_values (line : str) (G : GeoFields) (codes : list str)
  : list (str * str) :=
  map (fun code => (code, geo_value line G code)) codes.

(** Sample data. *)
Definition COUNTY : str := U "COUNTY".

Definition county_schema : GeoFields :=
  [(COUNTY, {| name := U "County"; start := Some 3; end_ := Some 6 |})].

(** Two schemas the builder produces from ranges that are not ascending
    1-based ranges: [A $ 0-3] and [A $ 7-3]. *)
Definition zero_start_schema : GeoFields :=
  [(U "A", {| name := U "a"; start := Some (-1); end_ := Some 3 |})].

Definition inverted_schema : GeoFields :=
  [(U "A", {| name := U "a"; start := Some 6; end_ := Some 3 |})].

(** A schema whose second code has a label and no range. *)
Definition unranged_schema : GeoFields :=
  [(COUNTY, {| name := U "County"; start := Some 3; end_ := Some 6 |});
   (U "TRACT", {| name := U "Tract"; start := None; end_ := None |});
   (U "BLOCK", {| name := U "Block"; start := Some 6; end_ := Some 7 |})].

Definition sample_catalog : CensusCodes :=
  [(1, dict_set str_eq_dec (U "P000001") (U "Total Household population")
         header_code_dict);
   (2, dict_set str_eq_dec (U "H000002") (U "HOUSEHOLDS")
         (dict_set str_eq_dec (U "H000001") (U "Total housing units")
            header_code_dict))].

(** ** [parse_geo_file] and the definitions of its properties

    [open] and the iteration over the file are the caller's: the function
    takes the lines of the file, each with its line end.  [str.strip] and
    [int] on [str] need the Unicode tables of white space and digits; they
    are the parameters [str_strip] and [int_str] ([None] for the
    ValueError); [ascii_strip] is [str.strip] on ASCII text and
    [ascii_int] is [int] on runs of ASCII digits (elsewhere it gives
    [None], also where [int] would accept a sign or an underscore). *)

(** [l.sort()] on a list of integers: its ascending arrangement. *)
Fixpoint insert_sorted (x : Z) (l : list Z) : list Z :=
  match l with
  | [] => [x]
  | y :: l' => if x <=? y then x :: l else y :: insert_sorted x l'
  end.

Definition list_sort (l : list Z) : list Z := fold_right insert_sorted [] l.

(** What [parse_geo_file] can raise. *)
Inductive file_exn : Type :=
| Exn (e : exn)
| ValueError (s : str).

Inductive file_outcome (A : Type) : Type :=
| FReturned (a : A)
| FRaised (e : file_exn).

Arguments FReturned {A} a.
Arguments FRaised {A} e.

(** What [parse_geo_file] prints: the messages of [parse_geo_line] and
    the final list. *)
Inductive file_event : Type :=
| Decoding (e : event)
| PrintCounties (counties : list Z).

Section GeoFile.
Variable str_strip : str -> str.
Variable int_str : str -> option Z.

(** The loop over the lines (source lines 130-136); [counties] is the
    module-level list. *)
Fixpoint geo_file_loop (G : GeoFields) (lines : list str) (counties : list Z)
  : file_outcome (list Z) * list file_event :=
  match lines with
  | [] => (FReturned counties, [])
  | line :: lines' =>
      let (r, out) := parse_geo_line line G in
      match r with
      | Raised e => (FRaised (Exn e), map Decoding out)
      | Returned geo =>
          match dict_get str_eq_dec COUNTY geo with
          | None => (FRaised (Exn (KeyError (KStr COUNTY))), map Decoding out)
          | Some v =>
              match str_strip v with
              | [] =>
                  let (r', out') := geo_file_loop G lines' counties in
                  (r', map Decoding out ++ out')
              | c =>
                  match int_str c with
                  | None => (FRaised (ValueError c), map Decoding out)
                  | Some n =>
                      let counties' :=
                        if in_dec Z.eq_dec n counties then counties
                        else counties ++ [n] in
                      let (r', out') := geo_file_loop G lines' counties' in
                      (r', map Decoding out ++ out')
                  end
              end
          end
      end
  end.

Definition parse_geo_file (lines : list str) (G : GeoFields) (counties : list Z)
  : file_outcome (list Z) * list file_event :=
  match geo_file_loop G lines counties with
  | (FReturned cs, out) =>
      (FReturned (list_sort cs), out ++ [PrintCounties (list_sort cs)])
  | (FRaised e, out) => (FRaised e, out)
  end.

(** The stripped COUNTY text of a line, when the record has the field. *)
Definition county_text (G : GeoFields) (line : str) : option str :=
  match fst (parse_geo_line line G) with
  | Returned geo => option_map str_strip (dict_get str_eq_dec COUNTY geo)
  | Raised _ => None
  end.

(** Line [line] contributes the county number [n]. *)
Definition county_of (G : GeoFields) (line : str) (n : Z) : Prop :=
  exists c, county_text G line = Some c /\ c <> [] /\ int_str c = Some n.
End GeoFile.

Definition ascii_strip (s : str) : str :=
  let ws := fun c : N =>
    ((9 <=? c) && (c <=? 13) || (28 <=? c) && (c <=? 32))%N in
  let fix drop (l : str) : str :=
    match l with
    | [] => []
    | c :: l' => if ws c then drop l' else l
    end in
  rev (drop (rev (drop s))).

Definition ascii_int (s : str) : option Z :=
  match s with
  | [] => None
  | _ => if forallb cp_digit s then Some (int_of_digits s) else None
  end.

(** A descriptor of a built schema has both offsets or none, and the
    offsets come from decimal numbers. *)
Definition range_ok (f : geofield) : Prop :=
  (start f = None /\ end_ f = None)
  \/ exists a b, has_range f a b /\ -1 <= a /\ 0 <= b.

(** A descriptor without a start or without an end offset. *)
Definition unranged (f : geofield) : Prop := start f = None \/ end_ f = None.

(** The codes that the label lines of a schema document declare, in line
    order. *)
Definition label_code (l : bytes) : list str :=
  match re_match labelpat (strip l) with
  | Some m =>
      match group_decode 2 m with
      | Returned c => [c]
      | Raised _ => []
      end
  | None => []
  end.

Definition label_codes (lines : list bytes) : list str :=
  flat_map label_code lines.

(** The file number under which [codesFromZipFile] catalogues a member,
    when it does. *)
Definition member_fileno (lower : str -> str) (nm : str) : option Z :=
  if negb (endswith N.eq_dec (lower nm) (U ".sas")) then None
  else if str_eq_dec nm (U "sf1geo.sas") then None
  else match re_match filepat (lower nm) with
       | Some m => option_map int_of_digits (group 1 m)
       | None => None
       end.

(** The members [codesFromZipFile] reads. *)
Definition is_schema_member (lower : str -> str) (nm : str) : bool :=
  endswith N.eq_dec (lower nm) (U ".sas")
  && (if str_eq_dec nm (U "sf1geo.sas") then true
      else match re_match filepat (lower nm) with
           | Some _ => true
           | None => false
           end).

(** An entry of the catalog: the five headers with their descriptions
    first, then codes of the pattern's shape. *)
Definition entry_ok (cd : code_dict) : Prop :=
  firstn 5 cd = header_code_dict
  /\ forall c, In c (skipn 5 (keys cd)) -> code_shape c = true.

Definition catalog_entries_ok (cat : CensusCodes) : Prop :=
  forall fileno cd, In (fileno, cd) cat -> 0 <= fileno <= 999 /\ entry_ok cd.

(** ** Dictionaries *)

Section DictFacts.
Variables K V : Type.
Variable dec : forall a b : K, {a = b} + {a <> b}.
Implicit Types (d : dict K V) (k : K) (v : V).

Lemma dict_get_None k d : dict_get dec k d = None <-> ~ In k (keys d).
Proof.
  induction d as [|[k' v'] d IH]; simpl.
  - tauto.
  - destruct (dec k k') as [->|Hne].
    + split; [discriminate | intros H; exfalso; apply H; now left].
    + rewrite IH. split.
      * intros H [E|I]; [congruence | auto].
      * intros H I; apply H; now right.
Qed.

Lemma dict_get_Some_In k v d : dict_get dec k d = Some v -> In (k, v) d.
Proof.
  induction d as [|[k' v'] d IH]; simpl; [discriminate|].
  destruct (dec k k') as [->|Hne].
  - intros [= ->]; now left.
  - intros H; right; auto.
Qed.

Lemma dict_get_In_keys k d :
  In k (keys d) -> exists v, dict_get dec k d = Some v.
Proof.
  intros H. destruct (dict_get dec k d) as [v|] eqn:E; [eauto|].
  apply dict_get_None in E. contradiction.
Qed.

Lemma In_dict_get k v d :
  NoDup (keys d) -> In (k, v) d -> dict_get dec k d = Some v.
Proof.
  induction d as [|[k' v'] d IH]; simpl; [tauto|].
  intros ND [E|I].
  - inversion E; subst. destruct (dec k k); congruence.
  - inversion ND as [|? ? Hn ND']; subst.
    destruct (dec k k') as [->|Hne].
    + exfalso. apply Hn. change k' with (fst (k', v)). now apply in_map.
    + auto.
Qed.

Lemma dict_mem_true k d : dict_mem dec k d = true <-> In k (keys d).
Proof.
  unfold dict_mem. destruct (dict_get dec k d) eqn:E.
  - split; [|reflexivity]. intros _.
    apply dict_get_Some_In in E. change k with (fst (k, v)). now apply in_map.
  - apply dict_get_None in E. split; [discriminate | contradiction].
Qed.

Lemma keys_dict_set k v d :
  keys (dict_set dec k v d)
  = if dict_mem dec k d then keys d else keys d ++ [k].
Proof.
  unfold dict_mem. induction d as [|[k' v'] d IH]; simpl; [reflexivity|].
  destruct (dec k k') as [->|Hne]; simpl; [reflexivity|].
  rewrite IH. now destruct (dict_get dec k d).
Qed.

Lemma dict_get_set_same k v d : dict_get dec k (dict_set dec k v d) = Some v.
Proof.
  induction d as [|[k' v'] d IH]; simpl.
  - destruct (dec k k); congruence.
  - destruct (dec k k') as [->|Hne]; simpl.
    + destruct (dec k' k'); congruence.
    + destruct (dec k k'); congruence.
Qed.

Lemma dict_get_set_other k k' v d :
  k <> k' -> dict_get dec k' (dict_set dec k v d) = dict_get dec k' d.
Proof.
  intros Hne. induction d as [|[k0 v0] d IH]; simpl.
  - destruct (dec k' k); congruence.
  - destruct (dec k k0) as [->|Hne0]; simpl.
    + destruct (dec k' k0); congruence.
    + destruct (dec k' k0); congruence.
Qed.

Lemma In_keys_dict_set k k' v d :
  In k' (keys (dict_set dec k v d)) <-> k' = k \/ In k' (keys d).
Proof.
  rewrite keys_dict_set. destruct (dict_mem dec k d) eqn:E.
  - apply dict_mem_true in E. split; [auto|]. intros [->|H]; auto.
  - rewrite in_app_iff; simpl. intuition.
Qed.

Lemma NoDup_keys_dict_set k v d :
  NoDup (keys d) -> NoDup (keys (dict_set dec k v d)).
Proof.
  intros ND. rewrite keys_dict_set. destruct (dict_mem dec k d) eqn:E; [assumption|].
  assert (~ In k (keys d)) as Hn.
  { intros I. apply dict_mem_true in I. congruence. }
  clear E. induction (keys d) as [|x l IH]; simpl.
  - constructor; [tauto | constructor].
  - inversion ND; subst. constructor.
    + rewrite in_app_iff; simpl. simpl in Hn. intuition.
    + apply IH; [assumption|]. simpl in Hn. tauto.
Qed.
End DictFacts.

(** ** Loops *)

Lemma for_each_app {A S : Type} (body : A -> S -> outcome S) xs ys s :
  for_each body (xs ++ ys) s = (s' <- for_each body xs s ;; for_each body ys s').
Proof.
  revert s. induction xs as [|x xs IH]; intros s; simpl; [reflexivity|].
  destruct (body x s); simpl; auto.
Qed.

Lemma for_each_invariant {A S : Type} (body : A -> S -> outcome S) (P : S -> Prop) xs :
  (forall x s s', In x xs -> P s -> body x s = Returned s' -> P s') ->
  forall s s', P s -> for_each body xs s = Returned s' -> P s'.
Proof.
  induction xs as [|x xs IH]; intros Hb s s' Hs; simpl.
  - intros [= <-]; assumption.
  - destruct (body x s) as [s1|e] eqn:E; simpl; [|discriminate].
    apply IH.
    + intros y t t' Hy. apply Hb. now right.
    + apply (Hb x s s1); auto. now left.
Qed.

(** ** The matcher *)

Section RegexFacts.
Variable A : Type.
Implicit Types (r : regex A) (s w : list A) (c : captures A).

Lemma rep_sound {R} (p : A -> bool) s :
  forall lo hi (k : list A -> option R) res,
    rep p lo hi s k = Some res ->
    exists w s',
      s = w ++ s' /\ forallb p w = true /\ (lo <= length w)%nat
      /\ (forall h, hi = Some h -> (length w <= h)%nat)
      /\ k s' = Some res.
Proof.
  assert (Hstop : forall lo hi (k : list A -> option R) res s0,
             match lo with O => k s0 | S _ => None end = Some res ->
             exists w s', s0 = w ++ s' /\ forallb p w = true
                          /\ (lo <= length w)%nat
                          /\ (forall h, hi = Some h -> (length w <= h)%nat)
                          /\ k s' = Some res).
  { intros lo hi k res s0 H. destruct lo; [|discriminate].
    exists [], s0. simpl. repeat split; auto. intros; lia. }
  induction s as [|a s IH]; intros lo hi k res H; simpl in H.
  - now apply Hstop.
  - destruct (p a) eqn:Hp; simpl in H; [|now apply Hstop].
    destruct (room hi) eqn:Hr; [|now apply Hstop].
    destruct (rep p (Nat.pred lo) (option_map Nat.pred hi) s k) as [x|] eqn:E;
      [|now apply Hstop].
    injection H as <-.
    apply IH in E as (w & s' & -> & Hw & Hlo & Hhi & Hk).
    exists (a :: w), s'. simpl. rewrite Hp, Hw. repeat split; auto.
    + lia.
    + intros h ->. destruct h as [|h]; [discriminate|].
      specialize (Hhi h eq_refl). lia.
Qed.

Lemma rmatch_sound {R} r :
  forall s c (k : list A -> captures A -> option R) res,
    rmatch r s c k = Some res ->
    exists w s' c',
      s = w ++ s' /\ matches r w c c' /\ k s' c' = Some res.
Proof.
  induction r as [p lo hi | r IH | n r IH | r1 IH1 r2 IH2];
    intros s c k res H; simpl in H.
  - apply rep_sound in H as (w & s' & -> & Hw & Hlo & Hhi & Hk).
    exists w, s', c. repeat split; auto. now constructor.
  - destruct (rmatch r s c k) as [x|] eqn:E.
    + injection H as <-. apply IH in E as (w & s' & c' & -> & Hm & Hk).
      exists w, s', c'. repeat split; auto. now constructor.
    + exists [], s, c. split; [reflexivity|]. split; [apply matches_skip | exact H].
  - apply IH in H as (w & s' & c' & -> & Hm & Hk).
    rewrite length_app, Nat.add_sub, firstn_app, Nat.sub_diag, firstn_all in Hk.
    simpl in Hk. rewrite app_nil_r in Hk.
    exists w, s', ((n, w) :: c'). repeat split; auto. now constructor.
  - apply IH1 in H as (w1 & s1 & c1 & -> & Hm1 & Hk).
    apply IH2 in Hk as (w2 & s2 & c2 & -> & Hm2 & Hk).
    exists (w1 ++ w2), s2, c2. rewrite app_assoc. repeat split; auto.
    econstructor; eauto.
Qed.

Lemma re_match_sound r s m :
  re_match r s = Some m -> exists w s', s = w ++ s' /\ matches r w [] m.
Proof.
  unfold re_match. intros H.
  apply rmatch_sound in H as (w & s' & c' & -> & Hm & [= ->]). eauto.
Qed.
End RegexFacts.

(** ** The three byte patterns *)

Section MatchesInv.
Variable A : Type.
Implicit Types (r : regex A) (w : list A) (c : captures A).

Lemma matches_cat_inv r1 r2 w c c' :
  matches (r1 @@ r2) w c c' ->
  exists w1 w2 c1, w = w1 ++ w2 /\ matches r1 w1 c c1 /\ matches r2 w2 c1 c'.
Proof. intros H; inversion H; subst; eauto 6. Qed.

Lemma matches_grp_inv n r w c c' :
  matches (Grp n r) w c c' -> exists c1, c' = (n, w) :: c1 /\ matches r w c c1.
Proof. intros H; inversion H; subst; eauto. Qed.

Lemma matches_rep_inv p lo hi w c c' :
  matches (Rep p lo hi) w c c' ->
  c' = c /\ forallb p w = true /\ (lo <= length w)%nat
  /\ (forall h, hi = Some h -> (length w <= h)%nat).
Proof. intros H; inversion H; subst; auto. Qed.

Lemma matches_one_inv p w c c' :
  matches (one p) w c c' -> exists a, w = [a] /\ p a = true /\ c' = c.
Proof.
  intros H. apply matches_rep_inv in H as (-> & Hp & Hlo & Hhi).
  specialize (Hhi 1%nat eq_refl).
  destruct w as [|a [|b w]]; simpl in *; try lia.
  exists a. rewrite andb_true_r in Hp. auto.
Qed.

Lemma matches_opt_inv r w c c' :
  matches (Opt r) w c c' -> matches r w c c' \/ (w = [] /\ c' = c).
Proof. intros H; inversion H; subst; auto. Qed.
End MatchesInv.

Lemma matches_chr_inv x w c c' :
  matches (chr x) w c c' -> w = [x] /\ c' = c.
Proof.
  intros H. apply matches_one_inv in H as (a & -> & E & ->).
  apply Byte.byte_dec_bl in E. now subst.
Qed.

(** The next piece of a concatenation. *)
Ltac next_cat H w c Hm :=
  let w' := fresh "w" in
  let E := fresh "E" in
  apply matches_cat_inv in H as (w & w' & c & E & Hm & H); subst.

Ltac next_chr H :=
  let w := fresh "w" in
  let c := fresh "c" in
  let Hm := fresh "Hm" in
  next_cat H w c Hm; apply matches_chr_inv in Hm as (-> & ->).

Lemma pat_inv line m :
  re_match pat line = Some m ->
  exists u ds rest desc pre post,
    m = [(2%nat, desc); (1%nat, u :: ds ++ rest)]
    /\ upper u = true
    /\ forallb digit ds = true /\ length ds = 3%nat
    /\ forallb alnum rest = true /\ (length rest = 3 \/ length rest = 4)%nat
    /\ line = pre ++ desc ++ post.
Proof.
  intros H. apply re_match_sound in H as (w & s' & -> & H).
  unfold pat in H.
  next_cat H sp1 c1 Hsp1. apply matches_rep_inv in Hsp1 as (-> & _).
  next_cat H code c2 Hcode.
  apply matches_grp_inv in Hcode as (c3 & -> & Hcode).
  next_cat Hcode wu c4 Hu. apply matches_one_inv in Hu as (u & -> & Hu & ->).
  next_cat Hcode ds c5 Hds.
  apply matches_rep_inv in Hds as (-> & Hds & Hds3 & Hds3').
  apply matches_rep_inv in Hcode as (-> & Hrest & Hrest3 & Hrest4).
  specialize (Hds3' _ eq_refl). specialize (Hrest4 _ eq_refl).
  next_chr H. next_chr H.
  next_cat H sp2 c6 Hsp2. apply matches_rep_inv in Hsp2 as (-> & _).
  next_cat H desc c7 Hdesc.
  apply matches_grp_inv in Hdesc as (c8 & -> & Hdesc).
  apply matches_rep_inv in Hdesc as (-> & _).
  apply matches_chr_inv in H as (-> & ->).
  match goal with
  | |- context [(1%nat, [u] ++ ds ++ ?r)] => rename r into rest
  end.
  exists u, ds, rest, desc,
    (sp1 ++ ([u] ++ ds ++ rest) ++ [equals] ++ [quote] ++ sp2), ([quote] ++ s').
  split; [reflexivity|].
  repeat (split; [first [assumption | lia]|]).
  repeat rewrite <- app_assoc. reflexivity.
Qed.

Lemma labelpat_inv s m :
  re_match labelpat s = Some m ->
  exists g2 g3 c0 pre post,
    m = (3%nat, g3) :: (2%nat, g2) :: c0
    /\ forallb alnum g2 = true
    /\ s = pre ++ g2 ++ equals :: quote :: g3 ++ quote :: post
    /\ ((c0 = [] /\ pre = []) \/ (c0 = [(1%nat, LABEL_)] /\ pre = LABEL_)).
Proof.
  intros H. apply re_match_sound in H as (w & s' & -> & H).
  unfold labelpat in H.
  next_cat H pre c1 Hpre.
  next_cat H g2 c2 Hg2.
  apply matches_grp_inv in Hg2 as (c3 & -> & Hg2).
  apply matches_rep_inv in Hg2 as (-> & Hg2 & _).
  next_chr H. next_chr H.
  next_cat H g3 c4 Hg3.
  apply matches_grp_inv in Hg3 as (c5 & -> & Hg3).
  apply matches_rep_inv in Hg3 as (-> & _).
  apply matches_chr_inv in H as (-> & ->).
  exists g2, g3, c1, pre, s'.
  split; [reflexivity|]. split; [assumption|].
  split; [repeat rewrite <- app_assoc; reflexivity|].
  apply matches_opt_inv in Hpre as [Hpre | [-> ->]]; [right | now left].
  apply matches_grp_inv in Hpre as (c6 & -> & Hpre).
  do 5 next_chr Hpre. apply matches_chr_inv in Hpre as (-> & ->).
  split; reflexivity.
Qed.

Lemma fieldspat_inv s m :
  re_match fieldspat s = Some m ->
  exists g1 g2 g3 post,
    m = [(3%nat, g3); (2%nat, g2); (1%nat, g1)]
    /\ forallb alnum g1 = true /\ g1 <> []
    /\ forallb digit g2 = true /\ forallb digit g3 = true
    /\ s = g1 ++ sp :: "$"%byte :: sp :: g2 ++ "-"%byte :: g3 ++ post.
Proof.
  intros H. apply re_match_sound in H as (w & s' & -> & H).
  unfold fieldspat in H.
  next_cat H g1 c1 Hg1.
  apply matches_grp_inv in Hg1 as (c2 & -> & Hg1).
  apply matches_rep_inv in Hg1 as (-> & Hg1 & Hlen & _).
  do 3 next_chr H.
  next_cat H g2 c3 Hg2.
  apply matches_grp_inv in Hg2 as (c4 & -> & Hg2).
  apply matches_rep_inv in Hg2 as (-> & Hg2 & _).
  next_chr H.
  apply matches_grp_inv in H as (c5 & -> & H).
  match type of H with matches _ ?w _ _ => rename w into g3 end.
  apply matches_rep_inv in H as (-> & Hg3 & _).
  exists g1, g2, g3, s'.
  split; [reflexivity|]. split; [assumption|].
  split; [intros ->; simpl in Hlen; lia|].
  split; [assumption|]. split; [assumption|].
  repeat rewrite <- app_assoc. reflexivity.
Qed.

(** A run of class characters ends at the first character outside the
    class. *)
Lemma run_unique {A} (p : A -> bool) (a b : list A) x y t t' :
  forallb p a = true -> forallb p b = true -> p x = false -> p y = false ->
  a ++ x :: t = b ++ y :: t' -> a = b /\ x = y /\ t = t'.
Proof.
  revert b. induction a as [|c a IH]; intros [|d b] Ha Hb Hx Hy E;
    simpl in *.
  - injection E as -> ->. auto.
  - injection E as -> _. apply andb_prop in Hb as [Hd _]. congruence.
  - injection E as -> _. apply andb_prop in Ha as [Hc _]. congruence.
  - injection E as -> E. apply andb_prop in Ha as [_ Ha].
    apply andb_prop in Hb as [_ Hb].
    destruct (IH b Ha Hb Hx Hy E) as (-> & -> & ->). auto.
Qed.

(** A line is never both a label assignment and a byte-range declaration. *)
Lemma fieldspat_not_labelpat s m :
  re_match fieldspat s = Some m -> re_match labelpat s = None.
Proof.
  intros Hf. destruct (re_match labelpat s) as [m'|] eqn:Hl; [|reflexivity].
  exfalso.
  apply fieldspat_inv in Hf as (g1 & g2 & g3 & post & _ & Hg1 & Hne & _ & _ & Es).
  apply labelpat_inv in Hl as (h2 & h3 & c0 & pre & post' & _ & Hh2 & Es' & Hpre).
  rewrite Es in Es'. clear Es.
  destruct Hpre as [[_ ->] | [_ ->]]; simpl in Es'.
  - apply (run_unique alnum) in Es' as (_ & E & _); auto. discriminate.
  - change (g1 ++ sp :: "$"%byte :: sp :: g2 ++ "-"%byte :: g3 ++ post
            = B "LABEL" ++ sp :: h2 ++ equals :: quote :: h3 ++ quote :: post')
      in Es'.
    apply (run_unique alnum) in Es' as (_ & _ & E); auto.
    destruct h2 as [|b h2]; simpl in E; [discriminate|].
    injection E as <- _. discriminate.
Qed.

(** ** Decoding ASCII *)

Lemma decode_ascii s :
  ascii_bytes s -> decode s = Returned (map Byte.to_N s).
Proof.
  induction s as [|b s IH]; intros H; [reflexivity|].
  simpl. assert (Byte.to_N b < 128)%N as Hb by (apply H; now left).
  apply N.ltb_lt in Hb. rewrite Hb. rewrite IH; [reflexivity|].
  intros c Hc. apply H. now right.
Qed.

Lemma alnum_ascii b : alnum b = true -> (Byte.to_N b < 128)%N.
Proof.
  unfold alnum, digit, upper, byte_in. intros H.
  apply orb_prop in H as [H|H]; apply andb_prop in H as [_ H];
    apply N.leb_le in H; lia.
Qed.

Lemma alnum_run_ascii s : forallb alnum s = true -> ascii_bytes s.
Proof.
  intros H b Hb. apply alnum_ascii. rewrite forallb_forall in H. auto.
Qed.

Lemma decode_alnum s :
  forallb alnum s = true -> decode s = Returned (map Byte.to_N s).
Proof. intros H. apply decode_ascii, alnum_run_ascii, H. Qed.

(** ** Sequences of assignments *)

Lemma dict_get_app {K V} (dec : forall a b : K, {a = b} + {a <> b})
    (k : K) (d1 d2 : dict K V) :
  dict_get dec k (d1 ++ d2)
  = match dict_get dec k d1 with
    | Some v => Some v
    | None => dict_get dec k d2
    end.
Proof.
  induction d1 as [|[k' v'] d1 IH]; simpl; [reflexivity|].
  destruct (dec k k'); auto.
Qed.

Lemma assign_all_app ps qs d :
  assign_all (ps ++ qs) d = assign_all qs (assign_all ps d).
Proof. apply fold_left_app. Qed.

Lemma keys_assign_all ps : forall d,
  keys (assign_all ps d) = keys d ++ first_seen (keys d) (map fst ps).
Proof.
  induction ps as [|[k v] ps IH]; intros d; simpl.
  - now rewrite app_nil_r.
  - change (keys (assign_all ps (dict_set str_eq_dec k v d))
            = keys d ++ (if in_dec str_eq_dec k (keys d)
                         then first_seen (keys d) (map fst ps)
                         else k :: first_seen (keys d ++ [k]) (map fst ps))).
    rewrite IH, keys_dict_set.
    destruct (in_dec str_eq_dec k (keys d)) as [I|I].
    + apply (dict_mem_true str_eq_dec) in I. now rewrite I.
    + destruct (dict_mem str_eq_dec k d) eqn:E.
      * apply dict_mem_true in E. contradiction.
      * now rewrite <- app_assoc.
Qed.

Lemma dict_get_assign_all k ps : forall d,
  dict_get str_eq_dec k (assign_all ps d)
  = match dict_get str_eq_dec k (rev ps) with
    | Some v => Some v
    | None => dict_get str_eq_dec k d
    end.
Proof.
  induction ps as [|[k' v'] ps IH]; intros d; simpl; [reflexivity|].
  change (dict_get str_eq_dec k (assign_all ps (dict_set str_eq_dec k' v' d))
          = match dict_get str_eq_dec k (rev ps ++ [(k', v')]) with
            | Some v => Some v
            | None => dict_get str_eq_dec k d
            end).
  rewrite IH, dict_get_app.
  destruct (dict_get str_eq_dec k (rev ps)); [reflexivity|]. simpl.
  destruct (str_eq_dec k k') as [->|Hne].
  - apply dict_get_set_same.
  - apply dict_get_set_other. congruence.
Qed.

Lemma first_seen_fresh l : forall seen,
  NoDup l -> (forall x, In x l -> ~ In x seen) -> first_seen seen l = l.
Proof.
  induction l as [|x l IH]; intros seen ND H; simpl; [reflexivity|].
  inversion ND as [|? ? Hx ND']; subst.
  destruct (in_dec str_eq_dec x seen) as [I|_].
  - exfalso. apply (H x); [now left | assumption].
  - f_equal. apply IH; [assumption|].
    intros y Hy. rewrite in_app_iff. intros [I|[->|[]]].
    + apply (H y); [now right | assumption].
    + contradiction.
Qed.

Lemma In_first_seen l : forall seen x,
  In x (first_seen seen l) <-> In x l /\ ~ In x seen.
Proof.
  induction l as [|y l IH]; intros seen x; simpl; [tauto|].
  destruct (in_dec str_eq_dec y seen) as [I|I].
  - rewrite IH. split; [tauto|]. intros [[->|H] Hn]; tauto.
  - simpl. rewrite IH, in_app_iff. simpl. split.
    + intros [->|[H Hn]]; tauto.
    + intros [[->|H] Hn]; [tauto|].
      destruct (str_eq_dec y x); [tauto|]. right. tauto.
Qed.

(** ** Slices *)

Lemma slice_index_range n i : 0 <= n -> 0 <= slice_index n i <= n.
Proof. unfold slice_index. destruct (i <? 0) eqn:E; lia. Qed.

Lemma length_slice {A} (s : list A) a b :
  Z.of_nat (length (slice s a b))
  = Z.max 0 (slice_index (Z.of_nat (length s)) b
             - slice_index (Z.of_nat (length s)) a).
Proof.
  unfold slice.
  pose proof (slice_index_range a (Nat2Z.is_nonneg (length s))).
  pose proof (slice_index_range b (Nat2Z.is_nonneg (length s))).
  rewrite length_firstn, length_skipn. lia.
Qed.

Lemma length_slice_inside {A} (s : list A) a b :
  0 <= a <= b -> b <= Z.of_nat (length s) ->
  Z.of_nat (length (slice s a b)) = b - a.
Proof.
  intros Hab Hb. rewrite length_slice. unfold slice_index.
  destruct (a <? 0) eqn:Ea; destruct (b <? 0) eqn:Eb; lia.
Qed.

Lemma length_slice_short {A} (s : list A) a b :
  0 <= a -> Z.of_nat (length s) < b ->
  Z.of_nat (length (slice s a b)) = Z.max 0 (Z.of_nat (length s) - a).
Proof.
  intros Ha Hb. rewrite length_slice. unfold slice_index.
  destruct (a <? 0) eqn:Ea; destruct (b <? 0) eqn:Eb; lia.
Qed.

(** ** The record decoder *)

Lemma geo_slice_range line G code f a b :
  dict_get str_eq_dec code G = Some f -> has_range f a b ->
  geo_slice line G code = Returned (slice line a b)
  /\ geo_value line G code = slice line a b.
Proof.
  intros Hf [Ha Hb]. unfold geo_slice, geo_value, get_str, getitem, field_start, field_end.
  rewrite Hf. simpl. destruct f as [nm sa sb]; simpl in *. subst. auto.
Qed.

Lemma geo_slice_defective line G code f :
  dict_get str_eq_dec code G = Some f -> start f = None \/ end_ f = None ->
  exists k, geo_slice line G code = Raised (KeyError k).
Proof.
  intros Hf H. unfold geo_slice, get_str, getitem, field_start, field_end.
  rewrite Hf. simpl. destruct (start f) as [a|]; simpl; [|eauto].
  destruct H as [H|H]; [discriminate|]. rewrite H. simpl. eauto.
Qed.

Lemma geo_line_loop_prefix line G pre rest : forall d,
  (forall c, In c pre ->
             exists f a b, dict_get str_eq_dec c G = Some f /\ has_range f a b) ->
  geo_line_loop line G (pre ++ rest) d
  = geo_line_loop line G rest (assign_all (geo_values line G pre) d).
Proof.
  induction pre as [|c pre IH]; intros d H; simpl; [reflexivity|].
  destruct (H c (or_introl eq_refl)) as (f & a & b & Hf & Hr).
  destruct (geo_slice_range line G c Hf Hr) as [-> ->].
  apply IH. intros c' Hc'. apply H. now right.
Qed.

Lemma parse_geo_line_complete line G :
  (forall code f, dict_get str_eq_dec code G = Some f ->
                  exists a b, has_range f a b) ->
  parse_geo_line line G
  = (Returned (assign_all (geo_values line G (keys G)) []), []).
Proof.
  intros H. unfold parse_geo_line.
  rewrite <- (app_nil_r (keys G)) at 1. rewrite geo_line_loop_prefix; [reflexivity|].
  intros c Hc. apply (dict_get_In_keys str_eq_dec) in Hc as [f Hf].
  destruct (H c f Hf) as (a & b & Hr). eauto.
Qed.

Lemma dict_get_tabulate (g : str -> str) k l :
  dict_get str_eq_dec k (map (fun c => (c, g c)) l)
  = if in_dec str_eq_dec k l then Some (g k) else None.
Proof.
  induction l as [|c l IH]; simpl; [reflexivity|].
  destruct (str_eq_dec k c) as [->|Hne].
  - destruct (str_eq_dec c c); [reflexivity | congruence].
  - rewrite IH. destruct (str_eq_dec c k); [congruence|].
    destruct (in_dec str_eq_dec k l); reflexivity.
Qed.

Lemma dict_get_geo_values line G codes code d :
  In code codes ->
  dict_get str_eq_dec code (assign_all (geo_values line G codes) d)
  = Some (geo_value line G code).
Proof.
  intros H. rewrite dict_get_assign_all. unfold geo_values.
  rewrite <- map_rev, dict_get_tabulate.
  destruct (in_dec str_eq_dec code (rev codes)) as [_|Hn]; [reflexivity|].
  exfalso. apply Hn. now apply in_rev in H.
Qed.

Lemma keys_geo_values line G codes :
  keys (assign_all (geo_values line G codes) []) = first_seen [] codes.
Proof.
  rewrite keys_assign_all. simpl. unfold geo_values.
  rewrite map_map. simpl. now rewrite map_id.
Qed.

(** C1 (as amended): the two-line document with the label line
    COUNTY='County' and the range line COUNTY $ 4-6 builds exactly one
    descriptor, for COUNTY, with label County, start 3 and end 6, and the
    line XX12034YYYY decodes to COUNTY = 203 against it. *)
Theorem c1_county_round_trip :
  parse_geo_sas_lines [B "COUNTY='County'"; B "COUNTY $ 4-6"] []
  = Returned county_schema
  /\ parse_geo_line (U "XX12034YYYY") county_schema
     = (Returned [(COUNTY, U "203")], []).
Proof. split; vm_compute; reflexivity. Qed.

(** C1 as stated fails: the first line of the stated document is not a
    label assignment (it has no equals sign), so the range line raises
    KeyError for COUNTY; and offsets 3 to 6 of XX12034YYYY hold 203, not
    034. *)
Lemma c1_counterexample :
  parse_geo_sas_lines [B "COUNTY$ 'County'"; B "COUNTY $ 4-6"] []
  = Raised (KeyError (KStr COUNTY))
  /\ fst (parse_geo_line (U "XX12034YYYY") county_schema)
     <> Returned [(COUNTY, U "034")].
Proof. split; vm_compute; [reflexivity | discriminate]. Qed.

(** C2 (as amended): when every descriptor of the schema has offsets with
    0 <= start <= end <= the length of the line, decoding returns a record
    whose keys are exactly the codes of the schema (in the same order when
    the codes are distinct) and the value of each code has length
    end - start. *)
Theorem c2_decode_keys_and_lengths (G : GeoFields) (line : str) :
  (forall code f,
      dict_get str_eq_dec code G = Some f ->
      exists a b, has_range f a b /\ 0 <= a <= b /\ b <= Z.of_nat (length line)) ->
  exists d,
    parse_geo_line line G = (Returned d, [])
    /\ (forall code, In code (keys d) <-> In code (keys G))
    /\ (NoDup (keys G) -> keys d = keys G)
    /\ (forall code f a b,
           dict_get str_eq_dec code G = Some f -> has_range f a b ->
           exists v, dict_get str_eq_dec code d = Some v
                     /\ Z.of_nat (length v) = b - a).
Proof.
  intros H. eexists. split; [|split; [|split]].
  - apply parse_geo_line_complete. intros code f Hf.
    destruct (H code f Hf) as (a & b & Hr & _). eauto.
  - intros code. rewrite keys_geo_values, In_first_seen. simpl. tauto.
  - intros ND. rewrite keys_geo_values. apply first_seen_fresh; auto.
  - intros code f a b Hf Hr.
    destruct (H code f Hf) as (a' & b' & [Ha' Hb'] & Hab & Hlen).
    destruct Hr as [Ha Hb]. rewrite Ha in Ha'. rewrite Hb in Hb'.
    injection Ha' as <-. injection Hb' as <-.
    exists (slice line a b). split; [|now apply length_slice_inside].
    rewrite dict_get_geo_values.
    + f_equal. now apply (geo_slice_range line G code Hf).
    + destruct (dict_get str_eq_dec code G) eqn:E; [|discriminate].
      apply dict_get_Some_In in E. change code with (fst (code, g)).
      now apply in_map.
Qed.

Lemma c2_decode_keys_and_lengths_witness :
  exists d,
    parse_geo_line (U "XX12034YYYY") county_schema = (Returned d, [])
    /\ (forall code, In code (keys d) <-> In code (keys county_schema))
    /\ (NoDup (keys county_schema) -> keys d = keys county_schema)
    /\ (forall code f a b,
           dict_get str_eq_dec code county_schema = Some f -> has_range f a b ->
           exists v, dict_get str_eq_dec code d = Some v
                     /\ Z.of_nat (length v) = b - a).
Proof.
  apply (c2_decode_keys_and_lengths county_schema (U "XX12034YYYY")).
  intros code f H. simpl in H.
  destruct (str_eq_dec code COUNTY); [|discriminate].
  injection H as <-. exists 3, 6. unfold has_range. simpl.
  repeat split; lia.
Defined.

(** C2 as stated fails for schemas the builder produces.  The range 0-3
    gives start -1 and end 3: on the five-character line abcde the slice
    is empty, not 4 characters long.  The range 7-3 gives start 6 and end
    3: the slice is empty, and end - start is negative. *)
Lemma c2_counterexample :
  (parse_geo_sas_lines [B "A='a'"; B "A $ 0-3"] [] = Returned zero_start_schema
   /\ 3 <= Z.of_nat (length (U "abcde"))
   /\ parse_geo_line (U "abcde") zero_start_schema = (Returned [(U "A", [])], [])
   /\ Z.of_nat (length (@nil N)) <> 3 - (-1))
  /\ (parse_geo_sas_lines [B "A='a'"; B "A $ 7-3"] [] = Returned inverted_schema
      /\ 3 <= Z.of_nat (length (U "abcdefgh"))
      /\ parse_geo_line (U "abcdefgh") inverted_schema
         = (Returned [(U "A", [])], [])
      /\ Z.of_nat (length (@nil N)) <> 3 - 6).
Proof. repeat split; vm_compute; congruence. Qed.

(** C4 (as amended): for every schema whose descriptors all have a byte
    range and every line, also one shorter than a descriptor's end offset,
    decoding prints nothing and marks nothing: every code of the schema
    is decoded, each to the plain slice of the line between its offsets;
    for 0 <= start < end and a line shorter than end that slice is the
    truncated text, of length max(0, len(line) - start), shorter than
    end - start. *)
Theorem c4_short_line_is_silent (G : GeoFields) (line : str) :
  (forall code f, dict_get str_eq_dec code G = Some f ->
                  exists a b, has_range f a b) ->
  exists d,
    parse_geo_line line G = (Returned d, [])
    /\ (forall code, In code (keys d) <-> In code (keys G))
    /\ (forall code f a b,
           dict_get str_eq_dec code G = Some f -> has_range f a b ->
           dict_get str_eq_dec code d = Some (slice line a b)
           /\ (0 <= a < b -> Z.of_nat (length line) < b ->
               Z.of_nat (length (slice line a b))
               = Z.max 0 (Z.of_nat (length line) - a)
               /\ Z.of_nat (length (slice line a b)) < b - a)).
Proof.
  intros H. eexists. split; [|split].
  - now apply parse_geo_line_complete.
  - intros code. rewrite keys_geo_values, In_first_seen. simpl. tauto.
  - intros code f a b Hf Hr. split.
    + rewrite dict_get_geo_values.
      * f_equal. now apply (geo_slice_range line G code Hf).
      * apply dict_get_Some_In in Hf. change code with (fst (code, f)).
        now apply in_map.
    + intros Hab Hshort. rewrite length_slice_short by lia. lia.
Qed.

Lemma c4_short_line_is_silent_witness :
  exists d,
    parse_geo_line (U "XX") county_schema = (Returned d, [])
    /\ (forall code, In code (keys d) <-> In code (keys county_schema))
    /\ (forall code f a b,
           dict_get str_eq_dec code county_schema = Some f -> has_range f a b ->
           dict_get str_eq_dec code d = Some (slice (U "XX") a b)
           /\ (0 <= a < b -> Z.of_nat (length (U "XX")) < b ->
               Z.of_nat (length (slice (U "XX") a b))
               = Z.max 0 (Z.of_nat (length (U "XX")) - a)
               /\ Z.of_nat (length (slice (U "XX") a b)) < b - a)).
Proof.
  apply (c4_short_line_is_silent county_schema (U "XX")).
  intros code f H. simpl in H.
  destruct (str_eq_dec code COUNTY); [|discriminate].
  injection H as <-. exists 3, 6. unfold has_range. simpl. split; reflexivity.
Defined.

(** C4 as stated fails: the two-character line XX is shorter than the end
    offset 6 of COUNTY, and decoding it prints nothing and stores the
    empty string, an ordinary value, for COUNTY. *)
Lemma c4_counterexample :
  Z.of_nat (length (U "XX")) < 6
  /\ parse_geo_line (U "XX") county_schema = (Returned [(COUNTY, [])], []).
Proof. split; vm_compute; reflexivity. Qed.

(** C10: when the schema has a descriptor without a start or an end
    offset, decoding returns without raising: it stops at the first such
    descriptor in iteration order, prints it, and returns the record of
    the codes before it, which contains neither that code nor any later
    code. *)
Theorem c10_missing_range_stops (G : GeoFields) (line : str)
    (pre post : list str) (code : str) (f : geofield) :
  NoDup (keys G) ->
  keys G = pre ++ code :: post ->
  (forall c, In c pre ->
             exists f' a b, dict_get str_eq_dec c G = Some f' /\ has_range f' a b) ->
  dict_get str_eq_dec code G = Some f ->
  start f = None \/ end_ f = None ->
  exists d,
    parse_geo_line line G = (Returned d, [PrintKeyError code f])
    /\ keys d = pre
    /\ (forall c, In c pre -> dict_get str_eq_dec c d = Some (geo_value line G c))
    /\ ~ In code (keys d)
    /\ (forall c, In c post -> ~ In c (keys d)).
Proof.
  intros ND Ek Hpre Hf Hdef.
  assert (NoDup pre /\ ~ In code pre /\ forall c, In c post -> ~ In c pre)
    as (NDpre & Hcode & Hpost).
  { rewrite Ek in ND. split; [|split].
    - now apply NoDup_app_remove_r in ND.
    - apply NoDup_remove_2 in ND. rewrite in_app_iff in ND. tauto.
    - intros c Hc Hc'. apply in_split in Hc' as (p1 & p2 & ->).
      rewrite <- app_assoc in ND. simpl in ND.
      apply NoDup_remove_2 in ND. apply ND.
      rewrite in_app_iff. right. rewrite in_app_iff. right. now right. }
  exists (assign_all (geo_values line G pre) []).
  assert (keys (assign_all (geo_values line G pre) []) = pre) as Ekeys.
  { rewrite keys_geo_values. apply first_seen_fresh; auto. }
  rewrite Ekeys. repeat split; auto.
  - unfold parse_geo_line. rewrite Ek, geo_line_loop_prefix by assumption.
    simpl. destruct (geo_slice_defective line G code Hf Hdef) as [k ->].
    unfold get_str, getitem. now rewrite Hf.
  - intros c Hc. now apply dict_get_geo_values.
Qed.

Lemma c10_missing_range_stops_witness :
  exists d,
    parse_geo_line (U "XX12034YYYY") unranged_schema
    = (Returned d,
       [PrintKeyError (U "TRACT")
          {| name := U "Tract"; start := None; end_ := None |}])
    /\ keys d = [COUNTY]
    /\ (forall c, In c [COUNTY] ->
                  dict_get str_eq_dec c d
                  = Some (geo_value (U "XX12034YYYY") unranged_schema c))
    /\ ~ In (U "TRACT") (keys d)
    /\ (forall c, In c [U "BLOCK"] -> ~ In c (keys d)).
Proof.
  apply (@c10_missing_range_stops unranged_schema (U "XX12034YYYY")
           [COUNTY] [U "BLOCK"] (U "TRACT")
           {| name := U "Tract"; start := None; end_ := None |}).
  - vm_compute. repeat constructor; simpl; intuition discriminate.
  - reflexivity.
  - intros c [<-|[]]. eexists; exists 3, 6. vm_compute. auto.
  - reflexivity.
  - left. reflexivity.
Defined.

(** ** The schema builder *)

Lemma decode_raises s : forall e, decode s = Raised e -> e = UnicodeDecodeError.
Proof.
  remember (length s) as n eqn:En. revert s En.
  induction n as [n IH] using lt_wf_ind. intros s En e.
  assert (step : forall r (g : N) e',
             (length r < n)%nat ->
             (x <- decode r ;; Returned (g :: x)) = Raised e' ->
             e' = UnicodeDecodeError).
  { intros r g e' Hr. destruct (decode r) eqn:E; simpl; [discriminate|].
    intros [= <-]. eapply IH; eauto. }
  destruct s as [|b0 s1]; [discriminate|]. simpl in En. cbn [decode].
  cbv zeta.
  repeat match goal with
    | |- Raised _ = Raised _ -> _ => intros [= <-]; reflexivity
    | |- (_ <- decode ?r ;; _) = Raised _ -> _ =>
        apply step; subst n; simpl; lia
    | |- (if ?c then _ else _) = _ -> _ => destruct c
    | |- match ?l with [] => _ | _ :: _ => _ end = _ -> _ => destruct l
    end.
Qed.



Lemma get_str_Some {V} k (d : dict str V) v :
  dict_get str_eq_dec k d = Some v -> get_str k d = Returned v.
Proof. unfold get_str, getitem. now intros ->. Qed.

Lemma get_str_None {V} k (d : dict str V) :
  dict_get str_eq_dec k d = None -> get_str k d = Raised (KeyError (KStr k)).
Proof. unfold get_str, getitem. now intros ->. Qed.








(** ** The catalog builder *)

Lemma forallb_alnum_map rest :
  forallb cp_alnum (map Byte.to_N rest) = forallb alnum rest.
Proof.
  induction rest as [|b r IH]; [reflexivity|].
  change (alnum b && forallb cp_alnum (map Byte.to_N r)
          = alnum b && forallb alnum r).
  now rewrite IH.
Qed.

Lemma pat_code line m :
  re_match pat line = Some m ->
  exists code desc pre post,
    group 1 m = Some code /\ group 2 m = Some desc
    /\ line = pre ++ desc ++ post
    /\ decode code = Returned (map Byte.to_N code)
    /\ code_shape (map Byte.to_N code) = true
    /\ (length code = 7 \/ length code = 8)%nat.
Proof.
  intros H.
  apply pat_inv in H
    as (u & ds & rest & desc & pre & post & -> & Hu & Hds & Hds3 & Hrest & Hlen & ->).
  exists (u :: ds ++ rest), desc, pre, post.
  assert (forallb alnum (u :: ds ++ rest) = true) as Hall.
  { simpl. rewrite forallb_app, Hrest, andb_true_r. unfold alnum at 1.
    rewrite Hu, orb_true_r. simpl.
    apply forallb_forall. intros b Hb. rewrite forallb_forall in Hds.
    unfold alnum. now rewrite (Hds b Hb). }
  repeat split; auto using decode_alnum.
  - destruct ds as [|d1 [|d2 [|d3 [|d4 ds]]]]; simpl in Hds3; try discriminate.
    simpl in Hds. repeat rewrite andb_true_iff in Hds.
    destruct Hds as (H1 & H2 & H3 & _).
    change (cp_upper (Byte.to_N u) && cp_digit (Byte.to_N d1)
            && cp_digit (Byte.to_N d2) && cp_digit (Byte.to_N d3)
            && forallb cp_alnum (map Byte.to_N rest)
            && ((length (map Byte.to_N rest) =? 3)%nat
                || (length (map Byte.to_N rest) =? 4)%nat) = true).
    rewrite length_map.
    rewrite forallb_alnum_map.
    change (upper u && digit d1 && digit d2 && digit d3 && forallb alnum rest
            && ((length rest =? 3)%nat || (length rest =? 4)%nat) = true).
    rewrite Hu, H1, H2, H3, Hrest. simpl.
    destruct Hlen as [-> | ->]; reflexivity.
  - simpl. rewrite length_app. lia.
Qed.

Lemma line_pairs_spec l c d : In (c, d) (line_pairs l) <-> extracts l c d.
Proof.
  unfold line_pairs, extracts. split.
  - destruct (re_match pat l) as [m|]; [|intros []].
    destruct (group_decode 1 m) eqn:E1; [|intros []].
    destruct (group_decode 2 m) eqn:E2; [|intros []].
    intros [[= <- <-]|[]]. eauto.
  - intros (m & -> & -> & ->). now left.
Qed.

Lemma sas_pairs_spec saslines c d :
  In (c, d) (sas_pairs saslines)
  <-> exists l, In l saslines /\ extracts l c d.
Proof.
  unfold sas_pairs. rewrite in_flat_map.
  split; intros (l & Hl & H); exists l; split; auto; now apply line_pairs_spec.
Qed.

Lemma extracts_shape l c d :
  extracts l c d -> code_shape c = true /\ (length c = 7 \/ length c = 8)%nat.
Proof.
  intros (m & Hm & Hc & _).
  apply pat_code in Hm as (code & desc & pre & post & H1 & _ & _ & Hd & Hs & Hlen).
  unfold group_decode in Hc. rewrite H1, Hd in Hc. injection Hc as <-.
  now rewrite length_map.
Qed.

Lemma code_shape_not_header c : code_shape c = true -> ~ In c header_codes.
Proof.
  intros H Hin. unfold header_codes in Hin. simpl in Hin.
  repeat destruct Hin as [<-|Hin]; try (vm_compute in H; discriminate).
  contradiction.
Qed.

Lemma saslines_line_pairs l cd cd' :
  saslines_line l cd = Returned cd' -> cd' = assign_all (line_pairs l) cd.
Proof.
  unfold saslines_line, line_pairs.
  destruct (re_match pat l) as [m|]; [|now intros [= <-]].
  destruct (group_decode 1 m); simpl; [|discriminate].
  destruct (group_decode 2 m); simpl; [|discriminate].
  now intros [= <-].
Qed.

Lemma for_each_saslines_pairs saslines : forall cd cd',
  for_each saslines_line saslines cd = Returned cd' ->
  cd' = assign_all (sas_pairs saslines) cd.
Proof.
  induction saslines as [|l ls IH]; intros cd cd'; simpl.
  - now intros [= <-].
  - destruct (saslines_line l cd) as [cd1|] eqn:E; simpl; [|discriminate].
    intros H. apply IH in H. apply saslines_line_pairs in E. subst.
    unfold sas_pairs. simpl. now rewrite assign_all_app.
Qed.

Lemma first_seen_disjoint l : forall s1 s2,
  (forall x, In x l -> ~ In x s1) ->
  first_seen (s1 ++ s2) l = first_seen s2 l.
Proof.
  induction l as [|x l IH]; intros s1 s2 H; simpl; [reflexivity|].
  assert (~ In x s1) as Hx by (apply H; now left).
  assert (forall y, In y l -> ~ In y s1) as Hl by (intros y Hy; apply H; now right).
  destruct (in_dec str_eq_dec x (s1 ++ s2)) as [I|I];
    destruct (in_dec str_eq_dec x s2) as [J|J].
  - now apply IH.
  - apply in_app_iff in I. tauto.
  - exfalso. apply I. apply in_app_iff. tauto.
  - f_equal. rewrite <- app_assoc. now apply IH.
Qed.

Lemma keys_code_dict_of saslines cd :
  code_dict_of saslines = Returned cd ->
  keys cd = header_codes ++ first_seen [] (map fst (sas_pairs saslines)).
Proof.
  intros H. apply for_each_saslines_pairs in H. subst cd.
  rewrite keys_assign_all.
  change (keys header_code_dict) with header_codes.
  f_equal. rewrite <- (app_nil_r header_codes) at 1.
  apply first_seen_disjoint.
  intros c Hc. apply in_map_iff in Hc as ([c' d] & <- & Hc).
  apply sas_pairs_spec in Hc as (l & _ & He).
  apply code_shape_not_header. now apply (extracts_shape He).
Qed.

(** [code_dict_of] fails only on a description that is not valid UTF-8;
    on ASCII documents it returns. *)
Lemma code_dict_of_ascii saslines :
  (forall l, In l saslines -> ascii_bytes l) ->
  exists cd, code_dict_of saslines = Returned cd.
Proof.
  unfold code_dict_of. generalize header_code_dict.
  induction saslines as [|l ls IH]; intros cd H; simpl; [eauto|].
  assert (exists cd1, saslines_line l cd = Returned cd1) as [cd1 ->].
  { unfold saslines_line. destruct (re_match pat l) as [m|] eqn:Hm; [|eauto].
    apply pat_code in Hm as (code & desc & pre & post & H1 & H2 & El & Hd & _).
    unfold group_decode. rewrite H1, H2, Hd. simpl.
    rewrite decode_ascii; simpl; [eauto|].
    intros b Hb. apply (H l (or_introl eq_refl)). rewrite El.
    rewrite !in_app_iff. tauto. }
  simpl. apply IH. intros l' Hl'. apply H. now right.
Qed.

(** C5: the [code_dict] built for a document, whatever its lines, begins
    with the five header codes FILEID, STUSAB, CHARITER, CIFSN, LOGRECNO
    in that order, and every code after them was parsed from a line of
    the document. *)
Theorem c5_headers_first (saslines : list bytes) (cd : code_dict) :
  code_dict_of saslines = Returned cd ->
  firstn 5 (keys cd)
  = [U "FILEID"; U "STUSAB"; U "CHARITER"; U "CIFSN"; U "LOGRECNO"]
  /\ exists rest,
      keys cd = header_codes ++ rest
      /\ forall c, In c rest -> exists l d, In l saslines /\ extracts l c d.
Proof.
  intros H. apply keys_code_dict_of in H. rewrite H. split; [reflexivity|].
  eexists. split; [reflexivity|].
  intros c Hc. apply In_first_seen in Hc as [Hc _].
  apply in_map_iff in Hc as ([c' d] & <- & Hc).
  apply sas_pairs_spec in Hc as (l & Hl & He). eauto.
Qed.

Lemma c5_headers_first_witness :
  firstn 5 (keys (dict_set str_eq_dec (U "P000001") (U "Total population")
                    header_code_dict))
  = [U "FILEID"; U "STUSAB"; U "CHARITER"; U "CIFSN"; U "LOGRECNO"]
  /\ exists rest,
      keys (dict_set str_eq_dec (U "P000001") (U "Total population")
              header_code_dict)
      = header_codes ++ rest
      /\ forall c, In c rest ->
                   exists l d, In l [B "P000001='Total population'"]
                               /\ extracts l c d.
Proof.
  apply (@c5_headers_first [B "P000001='Total population'"]).
  vm_compute. reflexivity.
Defined.

Lemma code_dict_of_app pre post cd :
  code_dict_of (pre ++ post) = Returned cd ->
  exists cd0, code_dict_of pre = Returned cd0
              /\ cd = assign_all (sas_pairs post) cd0.
Proof.
  unfold code_dict_of. rewrite for_each_app.
  destruct (for_each saslines_line pre header_code_dict) as [cd0|]; simpl;
    [|discriminate].
  intros H. apply for_each_saslines_pairs in H. eauto.
Qed.

Lemma extracts_line_pairs l c d : extracts l c d -> line_pairs l = [(c, d)].
Proof.
  intros (m & Hm & Hc & Hd). unfold line_pairs. now rewrite Hm, Hc, Hd.
Qed.

(** C6: when a line assigns description d to code c and no later line of
    the document assigns to c, the [code_dict] built for the document
    stores d for c; no line moves a code that the lines before it put in
    the dictionary; and the codes after the headers are in the order of
    their first occurrences. *)
Theorem c6_last_write_wins (l1 l2 : list bytes) (line : bytes) (c d : str)
    (cd : code_dict) :
  code_dict_of (l1 ++ line :: l2) = Returned cd ->
  extracts line c d ->
  (forall l' d', In l' l2 -> ~ extracts l' c d') ->
  dict_get str_eq_dec c cd = Some d
  /\ (forall pre post cd0,
         l1 ++ line :: l2 = pre ++ post ->
         code_dict_of pre = Returned cd0 ->
         exists rest, keys cd = keys cd0 ++ rest)
  /\ keys cd
     = header_codes ++ first_seen [] (map fst (sas_pairs (l1 ++ line :: l2))).
Proof.
  intros H He Hlast. split; [|split].
  - apply for_each_saslines_pairs in H. subst cd.
    rewrite dict_get_assign_all.
    unfold sas_pairs. rewrite flat_map_app. simpl.
    rewrite (extracts_line_pairs He). simpl.
    rewrite rev_app_distr. simpl. rewrite <- app_assoc, dict_get_app.
    destruct (dict_get str_eq_dec c (rev (flat_map line_pairs l2))) as [v|] eqn:E.
    + exfalso. apply dict_get_Some_In in E. apply in_rev in E.
      apply (sas_pairs_spec l2) in E as (l' & Hl' & He').
      exact (Hlast l' v Hl' He').
    + simpl. destruct (str_eq_dec c c); congruence.
  - intros pre post cd0 E H0. rewrite E in H.
    apply code_dict_of_app in H as (cd0' & H0' & ->).
    rewrite H0 in H0'. injection H0' as <-.
    rewrite keys_assign_all. eauto.
  - now apply keys_code_dict_of.
Qed.

Lemma c6_last_write_wins_witness :
  dict_get str_eq_dec (U "P000001")
    (dict_set str_eq_dec (U "H000001") (U "Housing")
       (dict_set str_eq_dec (U "P000001") (U "Total population")
          header_code_dict))
  = Some (U "Total population")
  /\ (forall pre post cd0,
         [B "P000001='Total'"; B "H000001='Housing'"]
           ++ B "P000001='Total population'" :: [B "no match"]
         = pre ++ post ->
         code_dict_of pre = Returned cd0 ->
         exists rest,
           keys (dict_set str_eq_dec (U "H000001") (U "Housing")
                   (dict_set str_eq_dec (U "P000001") (U "Total population")
                      header_code_dict))
           = keys cd0 ++ rest)
  /\ keys (dict_set str_eq_dec (U "H000001") (U "Housing")
             (dict_set str_eq_dec (U "P000001") (U "Total population")
                header_code_dict))
     = header_codes
       ++ first_seen []
            (map fst
               (sas_pairs
                  ([B "P000001='Total'"; B "H000001='Housing'"]
                     ++ B "P000001='Total population'" :: [B "no match"]))).
Proof.
  apply (@c6_last_write_wins
           [B "P000001='Total'"; B "H000001='Housing'"] [B "no match"]
           (B "P000001='Total population'") (U "P000001")
           (U "Total population")).
  - vm_compute. reflexivity.
  - eexists. repeat split; vm_compute; reflexivity.
  - intros l' d' [<-|[]] (m & Hm & _). vm_compute in Hm. discriminate.
Defined.

(** C9 (as amended): every code the pattern of the numbered documents
    extracts is one capital letter, three digits and three or four capital
    letters or digits: 7 or 8 characters. *)
Theorem c9_code_shape (line : bytes) (m : captures byte) :
  re_match pat line = Some m ->
  exists pcode,
    group_decode 1 m = Returned pcode
    /\ code_shape pcode = true
    /\ (length pcode = 7 \/ length pcode = 8)%nat.
Proof.
  intros H.
  apply pat_code in H as (code & desc & pre & post & H1 & _ & _ & Hd & Hs & Hlen).
  exists (map Byte.to_N code). unfold group_decode. rewrite H1, Hd, length_map.
  auto.
Qed.

Lemma c9_code_shape_witness :
  exists pcode,
    group_decode 1 [(2%nat, B "Total population"); (1%nat, B "P000001")]
    = Returned pcode
    /\ code_shape pcode = true
    /\ (length pcode = 7 \/ length pcode = 8)%nat.
Proof.
  apply (@c9_code_shape (B "P000001='Total population'")).
  vm_compute. reflexivity.
Defined.

(** C9 as stated fails: the code H016H018, which the source names as an
    example, is extracted and has 8 characters. *)
Lemma c9_counterexample :
  re_match pat (B "H016H018='Total'")
  = Some [(2%nat, B "Total"); (1%nat, B "H016H018")]
  /\ group_decode 1 [(2%nat, B "Total"); (1%nat, B "H016H018")]
     = Returned (U "H016H018")
  /\ length (U "H016H018") = 8%nat
  /\ code_dict_of [B "H016H018='Total'"]
     = Returned (header_code_dict ++ [(U "H016H018", U "Total")]).
Proof. repeat split; vm_compute; reflexivity. Qed.

(** ** Well-formed dictionaries

    The builders only produce dictionaries with distinct keys. *)

Lemma NoDup_keys_assign_all ps : forall d,
  NoDup (keys d) -> NoDup (keys (assign_all ps d)).
Proof.
  induction ps as [|p ps IH]; intros d H; simpl; [assumption|].
  apply IH. now apply NoDup_keys_dict_set.
Qed.

Lemma NoDup_keys_code_dict_of saslines cd :
  code_dict_of saslines = Returned cd -> NoDup (keys cd).
Proof.
  intros H. apply for_each_saslines_pairs in H. subst.
  apply NoDup_keys_assign_all. vm_compute.
  repeat constructor; simpl; intuition discriminate.
Qed.

Lemma NoDup_keys_geo_sas_line l G G' :
  geo_sas_line l G = Returned G' -> NoDup (keys G) -> NoDup (keys G').
Proof.
  unfold geo_sas_line. intros H ND.
  destruct (re_match labelpat (strip l)) as [m|].
  - destruct (group_decode 2 m); simpl in H; [|discriminate].
    destruct (group_decode 3 m); simpl in H; [|discriminate].
    injection H as <-. now apply NoDup_keys_dict_set.
  - destruct (re_match fieldspat (strip l)) as [m|]; [|now injection H as <-].
    destruct (group_decode 1 m); simpl in H; [|discriminate].
    destruct (group_bytes 2 m); simpl in H; [|discriminate].
    destruct (get_str a G); simpl in H; [|discriminate].
    destruct (group_bytes 3 m); simpl in H; [|discriminate].
    match type of H with
    | (_ <- ?g ;; _) = _ => destruct g; simpl in H; [|discriminate]
    end.
    injection H as <-. now do 2 apply NoDup_keys_dict_set.
Qed.

Lemma NoDup_keys_parse_geo_sas_lines lines G G' :
  parse_geo_sas_lines lines G = Returned G' -> NoDup (keys G) -> NoDup (keys G').
Proof.
  intros H ND. revert H.
  apply for_each_invariant with (P := fun G0 : GeoFields => NoDup (keys G0));
    [|assumption].
  intros l s s' _ Hs Hl. eapply NoDup_keys_geo_sas_line; eauto.
Qed.

Lemma In_dict_set {K V} (dec : forall a b : K, {a = b} + {a <> b})
    (k k' : K) (v v' : V) d :
  In (k', v') (dict_set dec k v d) -> (k', v') = (k, v) \/ In (k', v') d.
Proof.
  induction d as [|[k0 v0] d IH]; simpl.
  - intros [E|[]]. left. now symmetry.
  - destruct (dec k k0) as [->|Hne]; simpl.
    + intros [E|H]; [left; now symmetry | right; now right].
    + intros [E|H]; [right; now left|].
      destruct (IH H); [now left | right; now right].
Qed.

Lemma codesFromZipFile_catalog_ok (lower : str -> str) namelist read st st' :
  codesFromZipFile lower namelist read st = Returned st' ->
  catalog_ok (census_codes st) -> catalog_ok (census_codes st').
Proof.
  unfold codesFromZipFile. intros Hrun Hok. revert Hrun.
  apply for_each_invariant with (P := fun s => catalog_ok (census_codes s));
    [|assumption].
  intros nm s s' _ [ND Hs] H. unfold zip_member in H.
  destruct (negb _); [now injection H as <-|].
  destruct (str_eq_dec nm (U "sf1geo.sas")).
  - destruct (parse_geo_sas_lines _ _); simpl in H; [|discriminate].
    injection H as <-. now split.
  - destruct (re_match filepat (lower nm)) as [m|]; [|now injection H as <-].
    destruct (group 1 m) as [g|]; [|discriminate].
    destruct (code_dict_of (split_nl (read nm))) as [cd|] eqn:E; simpl in H;
      [|discriminate].
    injection H as <-. simpl. split; [now apply NoDup_keys_dict_set|].
    intros fileno cd' Hin. apply In_dict_set in Hin as [[= -> ->]|Hin]; [|now apply (Hs fileno)].
    split; [|eapply NoDup_keys_code_dict_of; eauto].
    apply keys_code_dict_of in E. now rewrite E.
Qed.

(** ** The queries *)

Lemma get_int_Some {V} k (d : dict Z V) v :
  dict_get Z.eq_dec k d = Some v -> get_int k d = Returned v.
Proof. unfold get_int, getitem. now intros ->. Qed.

Lemma file_for_code_loop_find code cat (l : CensusCodes) :
  (forall fileno cd, In (fileno, cd) l -> dict_get Z.eq_dec fileno cat = Some cd) ->
  file_for_code_loop code cat (keys l)
  = Returned (option_map fst (find (fun e => dict_mem str_eq_dec code (snd e)) l)).
Proof.
  induction l as [|[fileno cd] l IH]; intros H; simpl; [reflexivity|].
  rewrite (get_int_Some _ _ (H fileno cd (or_introl eq_refl))). simpl.
  destruct (dict_mem str_eq_dec code cd); [reflexivity|].
  apply IH. intros n c Hin. apply H. now right.
Qed.

Lemma file_for_code_find code cat :
  NoDup (keys cat) ->
  file_for_code code cat
  = Returned (option_map fst (find (fun e => dict_mem str_eq_dec code (snd e)) cat)).
Proof.
  intros ND. apply file_for_code_loop_find.
  intros fileno cd. now apply In_dict_get.
Qed.

Lemma find_all_false {A} (f : A -> bool) l :
  (forall x, In x l -> f x = false) -> find f l = None.
Proof.
  induction l as [|x l IH]; intros H; simpl; [reflexivity|].
  rewrite (H x (or_introl eq_refl)). apply IH. intros y Hy. apply H. now right.
Qed.

Lemma find_first {A} (f : A -> bool) pre x post :
  (forall y, In y pre -> f y = false) -> f x = true ->
  find f (pre ++ x :: post) = Some x.
Proof.
  induction pre as [|y pre IH]; intros H Hx; simpl.
  - now rewrite Hx.
  - rewrite (H y (or_introl eq_refl)). apply IH; [|assumption].
    intros z Hz. apply H. now right.
Qed.

(** C7: on a catalog, [file_for_code] returns [None] when no entry
    contains the code, and the file number of the first entry, in the
    catalog's order, that contains it otherwise; so the number of the
    entry when exactly one contains it. *)
Theorem c7_file_for_code (code : str) (cat : CensusCodes) :
  NoDup (keys cat) ->
  ((forall fileno cd, In (fileno, cd) cat -> dict_mem str_eq_dec code cd = false) ->
   file_for_code code cat = Returned None)
  /\ (forall pre fileno cd post,
         cat = pre ++ (fileno, cd) :: post ->
         (forall n' cd', In (n', cd') pre -> dict_mem str_eq_dec code cd' = false) ->
         dict_mem str_eq_dec code cd = true ->
         file_for_code code cat = Returned (Some fileno))
  /\ (forall pre fileno cd post,
         cat = pre ++ (fileno, cd) :: post ->
         (forall n' cd', In (n', cd') (pre ++ post) ->
                         dict_mem str_eq_dec code cd' = false) ->
         dict_mem str_eq_dec code cd = true ->
         file_for_code code cat = Returned (Some fileno)).
Proof.
  intros ND. rewrite (@file_for_code_find code cat ND).
  assert (forall pre fileno cd post,
             cat = pre ++ (fileno, cd) :: post ->
             (forall n' cd', In (n', cd') pre -> dict_mem str_eq_dec code cd' = false) ->
             dict_mem str_eq_dec code cd = true ->
             Returned (option_map fst
                         (find (fun e => dict_mem str_eq_dec code (snd e)) cat))
             = Returned (Some fileno)) as Hfirst.
  { intros pre fileno cd post -> Hpre Hcd.
    rewrite find_first; [reflexivity | | exact Hcd].
    intros [n' cd'] Hin. simpl. eauto. }
  split; [|split].
  - intros H. rewrite find_all_false; [reflexivity|].
    intros [n cd] Hin. simpl. eauto.
  - exact Hfirst.
  - intros pre fileno cd post E Hothers. apply Hfirst with (1 := E).
    intros n' cd' Hin. apply (Hothers n' cd'). apply in_app_iff. now left.
Qed.

Lemma c7_file_for_code_witness :
  file_for_code (U "H000002") sample_catalog = Returned (Some 2).
Proof.
  assert (NoDup (keys sample_catalog)) as ND.
  { vm_compute. repeat constructor; simpl; intuition discriminate. }
  destruct (@c7_file_for_code (U "H000002") sample_catalog ND) as (_ & Hfirst & _).
  eapply (Hfirst [(1, _)] 2 _ []).
  - reflexivity.
  - intros n' cd' [[= <- <-]|[]]. vm_compute. reflexivity.
  - vm_compute. reflexivity.
Defined.

Example file_for_code_found :
  file_for_code (U "H000002") sample_catalog = Returned (Some 2).
Proof. vm_compute. reflexivity. Qed.

Example file_for_code_not_found :
  file_for_code (U "H000003") sample_catalog = Returned None.
Proof. vm_compute. reflexivity. Qed.

Section SeqFacts.
Variable A : Type.
Variable dec : forall a b : A, {a = b} + {a <> b}.

Lemma startswith_spec (s p : list A) :
  startswith dec s p = true <-> exists t, s = p ++ t.
Proof.
  revert s. induction p as [|c p IH]; intros s; simpl.
  - split; [intros _; now exists s | reflexivity].
  - destruct s as [|d s].
    + split; [discriminate | intros [t E]; discriminate].
    + destruct (dec c d) as [->|Hne].
      * rewrite IH. split; intros [t E]; exists t; congruence.
      * split; [discriminate | intros [t E]; congruence].
Qed.

Lemma contains_spec (s p : list A) :
  contains dec s p = true <-> exists u v, s = u ++ p ++ v.
Proof.
  induction s as [|d s IH]; simpl.
  - rewrite orb_false_r, startswith_spec. split.
    + intros [t E]. exists [], t. exact E.
    + intros (u & v & E). destruct u; [eauto | discriminate].
  - rewrite orb_true_iff, startswith_spec, IH. split.
    + intros [[t E] | (u & v & E)].
      * exists [], t. exact E.
      * exists (d :: u), v. simpl. congruence.
    + intros (u & v & E). destruct u as [|a u]; simpl in E.
      * left. eauto.
      * right. exists u, v. congruence.
Qed.
End SeqFacts.

Section DescriptionFacts.
Variable lower : str -> str.

Lemma description_loop_run desc (cat : CensusCodes) fileno (cd l : code_dict) :
  forall codes,
  dict_get Z.eq_dec fileno cat = Some cd ->
  (forall k v, In (k, v) l -> dict_get str_eq_dec k cd = Some v) ->
  for_each (description_loop lower desc cat fileno) (keys l) codes
  = Returned (codes ++ matching lower desc l).
Proof.
  induction l as [|[k v] l IH]; intros codes Hcd Hl; simpl.
  - now rewrite app_nil_r.
  - unfold description_loop at 1.
    rewrite (get_int_Some _ _ Hcd). simpl.
    rewrite (get_str_Some _ _ (Hl k v (or_introl eq_refl))). simpl.
    assert (forall k' v', In (k', v') l -> dict_get str_eq_dec k' cd = Some v')
      as Hl' by (intros k' v' H; apply Hl; now right).
    destruct (contains N.eq_dec (lower v) desc); simpl.
    + rewrite IH by assumption. now rewrite <- app_assoc.
    + now apply IH.
Qed.

Lemma codes_for_description_loop_run desc (cat l : CensusCodes) : forall codes,
  (forall fileno cd, In (fileno, cd) l ->
                     dict_get Z.eq_dec fileno cat = Some cd /\ NoDup (keys cd)) ->
  for_each
    (fun fileno codes =>
       cd <- get_int fileno cat ;;
       for_each (description_loop lower desc cat fileno) (keys cd) codes)
    (keys l) codes
  = Returned (codes ++ flat_map (fun e => matching lower desc (snd e)) l).
Proof.
  induction l as [|[fileno cd] l IH]; intros codes H; simpl.
  - now rewrite app_nil_r.
  - destruct (H fileno cd (or_introl eq_refl)) as [Hcd ND].
    rewrite (get_int_Some _ _ Hcd). simpl.
    rewrite (description_loop_run desc cat fileno (cd := cd)); auto.
    + simpl. rewrite IH; [now rewrite <- app_assoc|].
      intros n c Hin. apply H. now right.
    + intros k v. now apply In_dict_get.
Qed.

Lemma codes_for_description_run desc (cat : CensusCodes) :
  NoDup (keys cat) ->
  (forall fileno cd, In (fileno, cd) cat -> NoDup (keys cd)) ->
  codes_for_description lower desc cat
  = Returned (flat_map (fun e => matching lower (lower desc) (snd e)) cat).
Proof.
  intros ND Hcd. unfold codes_for_description.
  rewrite codes_for_description_loop_run; [reflexivity|].
  intros fileno cd Hin. split; [now apply In_dict_get | eauto].
Qed.

(** C8: on a catalog, [codes_for_description] returns, in the order of
    the catalog and within a file in the order of its entry, every pair
    (code, description) whose lowered description contains the lowered
    query; so the answer is the same for queries that differ only in
    letter case. *)
Theorem c8_codes_for_description (desc : str) (cat : CensusCodes) :
  NoDup (keys cat) ->
  (forall fileno cd, In (fileno, cd) cat -> NoDup (keys cd)) ->
  exists codes,
    codes_for_description lower desc cat = Returned codes
    /\ codes = flat_map (fun e => matching lower (lower desc) (snd e)) cat
    /\ (forall pcode d,
           In (pcode, d) codes
           <-> exists fileno cd,
               In (fileno, cd) cat /\ In (pcode, d) cd
               /\ exists u v, lower d = u ++ lower desc ++ v)
    /\ (forall desc',
           lower desc' = lower desc ->
           codes_for_description lower desc' cat = Returned codes).
Proof.
  intros ND Hcd. eexists. split; [now apply codes_for_description_run|].
  split; [reflexivity|]. split.
  - intros pcode d. rewrite in_flat_map. split.
    + intros ([fileno cd] & Hin & Hm). simpl in Hm.
      apply filter_In in Hm as [Hm Hc]. simpl in Hc.
      apply contains_spec in Hc. eauto 6.
    + intros (fileno & cd & Hin & Hm & Hc).
      exists (fileno, cd). split; [assumption|]. simpl.
      apply filter_In. split; [assumption|]. simpl.
      now apply contains_spec.
  - intros desc' E. rewrite codes_for_description_run by assumption.
    now rewrite E.
Qed.
End DescriptionFacts.

Lemma c8_codes_for_description_witness :
  exists codes,
    codes_for_description ascii_lower (U "household") sample_catalog
    = Returned codes
    /\ codes
       = flat_map
           (fun e => matching ascii_lower (ascii_lower (U "household")) (snd e))
           sample_catalog
    /\ (forall pcode d,
           In (pcode, d) codes
           <-> exists fileno cd,
               In (fileno, cd) sample_catalog /\ In (pcode, d) cd
               /\ exists u v,
                   ascii_lower d = u ++ ascii_lower (U "household") ++ v)
    /\ (forall desc',
           ascii_lower desc' = ascii_lower (U "household") ->
           codes_for_description ascii_lower desc' sample_catalog
           = Returned codes).
Proof.
  apply (@c8_codes_for_description ascii_lower (U "household") sample_catalog).
  - vm_compute. repeat constructor; simpl; intuition discriminate.
  - intros fileno cd [[= <- <-]|[[= <- <-]|[]]]; vm_compute;
      repeat constructor; simpl; intuition discriminate.
Defined.

(** The query household finds Household and HOUSEHOLDS, in both files, and
    so do the queries Household and HOUSEHOLD. *)
Example codes_for_description_household :
  codes_for_description ascii_lower (U "household") sample_catalog
  = Returned [(U "P000001", U "Total Household population");
              (U "H000002", U "HOUSEHOLDS")]
  /\ codes_for_description ascii_lower (U "Household") sample_catalog
     = codes_for_description ascii_lower (U "household") sample_catalog
  /\ codes_for_description ascii_lower (U "HOUSEHOLD") sample_catalog
     = codes_for_description ascii_lower (U "household") sample_catalog.
Proof. repeat split; vm_compute; reflexivity. Qed.

(** The archive with the members sf001.sas and sf002.sas, one assignment
    each: both entries hold their code after the five headers. *)
Example codesFromZipFile_two_documents :
  codesFromZipFile ascii_lower [U "sf001.sas"; U "readme.txt"; U "sf002.sas"]
    (fun nm => if str_eq_dec nm (U "sf001.sas")
               then B "P000001='Total population'"
               else B "H000001='Total housing units'")
    {| census_codes := []; geo_fields := [] |}
  = Returned
      {| census_codes :=
           [(1, header_code_dict ++ [(U "P000001", U "Total population")]);
            (2, header_code_dict ++ [(U "H000001", U "Total housing units")])];
         geo_fields := [] |}.
Proof. vm_compute. reflexivity. Qed.


(** * Further properties of the program *)

(** ** The record decoder on arbitrary schemas *)

Lemma geo_slice_raises line G code e :
  geo_slice line G code = Raised e -> exists k, e = KeyError k.
Proof.
  unfold geo_slice, get_str, getitem, field_start, field_end.
  destruct (dict_get str_eq_dec code G) as [f|]; simpl; [|intros [= <-]; eauto].
  destruct (start f); simpl; [|intros [= <-]; eauto].
  destruct (end_ f); simpl; [discriminate | intros [= <-]; eauto].
Qed.

Lemma geo_slice_returned line G code v :
  geo_slice line G code = Returned v ->
  exists f a b,
    dict_get str_eq_dec code G = Some f /\ has_range f a b /\ v = slice line a b.
Proof.
  unfold geo_slice, get_str, getitem, field_start, field_end, has_range.
  destruct (dict_get str_eq_dec code G) as [f|]; simpl; [|discriminate].
  destruct (start f) as [a|] eqn:Ea; simpl; [|discriminate].
  destruct (end_ f) as [b|] eqn:Eb; simpl; [|discriminate].
  intros [= <-]. exists f, a, b. auto.
Qed.

Lemma slice_piece {A} (s : list A) a b :
  exists u w, s = u ++ slice s a b ++ w.
Proof.
  unfold slice.
  exists (firstn (Z.to_nat (slice_index (Z.of_nat (length s)) a)) s).
  eexists. rewrite firstn_skipn. now rewrite firstn_skipn.
Qed.

(** The loop of the decoder, whatever the schema: it returns, prints at
    most once, and every entry it adds is a slice of the line under a code
    of the schema that has a range. *)
Lemma geo_line_loop_total line G codes : forall d,
  (forall c, In c codes -> In c (keys G)) ->
  exists d' ev,
    geo_line_loop line G codes d = (Returned d', ev)
    /\ (length ev <= 1)%nat
    /\ (forall k, In k (keys d') -> In k (keys d) \/ In k codes)
    /\ (forall k v,
           dict_get str_eq_dec k d' = Some v ->
           dict_get str_eq_dec k d = Some v
           \/ exists f a b, dict_get str_eq_dec k G = Some f
                            /\ has_range f a b /\ v = slice line a b).
Proof.
  induction codes as [|c codes IH]; intros d Hin; simpl.
  - exists d, []. simpl. repeat split; auto.
  - destruct (geo_slice line G c) as [v|e] eqn:E.
    + destruct (IH (dict_set str_eq_dec c v d)) as (d' & ev & -> & Hev & Hk & Hv).
      { intros c' Hc'. apply Hin. now right. }
      exists d', ev. repeat split; auto.
      * intros k Hkd. destruct (Hk k Hkd) as [H|H]; [|now right; right].
        apply In_keys_dict_set in H as [->|H]; [right; now left | now left].
      * intros k v' Hkv. destruct (Hv k v' Hkv) as [H|H]; [|now right].
        destruct (str_eq_dec c k) as [->|Hne].
        -- rewrite dict_get_set_same in H. injection H as <-.
           right. now apply geo_slice_returned.
        -- rewrite dict_get_set_other in H by assumption. now left.
    + apply geo_slice_raises in E as [k ->].
      destruct (dict_get_In_keys str_eq_dec c G) as [f Hf].
      { apply Hin. now left. }
      rewrite (get_str_Some _ _ Hf).
      exists d, [PrintKeyError c f]. simpl. repeat split; auto.
Qed.

(** X1: [parse_geo_line] never raises, whatever the schema and the line;
    it prints at most one message, and the codes of the record are codes
    of the schema. *)
Theorem parse_geo_line_never_raises (line : str) (G : GeoFields) :
  exists d ev,
    parse_geo_line line G = (Returned d, ev)
    /\ (length ev <= 1)%nat
    /\ (forall k, In k (keys d) -> In k (keys G)).
Proof.
  destruct (geo_line_loop_total line G (keys G) [] (fun c H => H))
    as (d & ev & E & Hev & Hk & _).
  exists d, ev. repeat split; auto.
  intros k Hkd. destruct (Hk k Hkd) as [[]|H]; assumption.
Qed.

(** X2: every value of a decoded record is a contiguous piece of the
    line: the slice between the offsets of its code's descriptor. *)
Theorem parse_geo_line_values_are_pieces (line : str) (G : GeoFields)
    (d : dict str str) (ev : list event) (code v : str) :
  parse_geo_line line G = (Returned d, ev) ->
  dict_get str_eq_dec code d = Some v ->
  (exists f a b, dict_get str_eq_dec code G = Some f
                 /\ has_range f a b /\ v = slice line a b)
  /\ (exists u w, line = u ++ v ++ w)
  /\ (length v <= length line)%nat.
Proof.
  intros E Hv.
  destruct (geo_line_loop_total line G (keys G) [] (fun c H => H))
    as (d' & ev' & E' & _ & _ & Hvals).
  unfold parse_geo_line in E. rewrite E' in E. injection E as <- <-.
  destruct (Hvals code v Hv) as [H|(f & a & b & Hf & Hr & ->)]; [discriminate|].
  split; [eauto 6|].
  destruct (slice_piece line a b) as (u & w & Hl). split; [eauto|].
  rewrite Hl at 2. rewrite !length_app. lia.
Qed.

Lemma parse_geo_line_values_are_pieces_witness :
  (exists f a b, dict_get str_eq_dec COUNTY county_schema = Some f
                 /\ has_range f a b /\ U "203" = slice (U "XX12034YYYY") a b)
  /\ (exists u w, U "XX12034YYYY" = u ++ U "203" ++ w)
  /\ (length (U "203") <= length (U "XX12034YYYY"))%nat.
Proof.
  apply (@parse_geo_line_values_are_pieces (U "XX12034YYYY") county_schema
           [(COUNTY, U "203")] [] COUNTY (U "203")).
  - vm_compute. reflexivity.
  - vm_compute. reflexivity.
Defined.

(** The codes with a range come first: a list of schema codes is all
    ranged, or splits at its first code without a range. *)
Lemma first_unranged G codes :
  (forall c, In c codes -> In c (keys G)) ->
  (forall c, In c codes ->
             exists f a b, dict_get str_eq_dec c G = Some f /\ has_range f a b)
  \/ exists pre code post f,
      codes = pre ++ code :: post
      /\ (forall c, In c pre ->
                    exists f' a b, dict_get str_eq_dec c G = Some f'
                                   /\ has_range f' a b)
      /\ dict_get str_eq_dec code G = Some f /\ unranged f.
Proof.
  induction codes as [|c codes IH]; intros Hin.
  - left. intros c [].
  - destruct (dict_get_In_keys str_eq_dec c G) as [f Hf]; [apply Hin; now left|].
    destruct (start f) as [a|] eqn:Ea; [destruct (end_ f) as [b|] eqn:Eb|].
    + destruct IH as [Hall | (pre & code & post & f' & -> & Hpre & Hf' & Hun)].
      * intros c' Hc'. apply Hin. now right.
      * left. intros c' [<-|Hc']; [exists f, a, b; now repeat split | auto].
      * right. exists (c :: pre), code, post, f'. repeat split; auto.
        intros c' [<-|Hc']; [exists f, a, b; now repeat split | auto].
    + right. exists [], c, codes, f. repeat split; auto; [intros ? []|now right].
    + right. exists [], c, codes, f. repeat split; auto; [intros ? []|now left].
Qed.



(** ** The schema builder, line by line *)

Lemma int_of_digits_nonneg ds :
  forallb cp_digit ds = true -> 0 <= int_of_digits ds.
Proof.
  unfold int_of_digits.
  assert (forall acc, 0 <= acc -> forallb cp_digit ds = true ->
                      0 <= fold_left (fun a d => 10 * a + (Z.of_N d - 48)) ds acc)
    as H; [|now apply H].
  induction ds as [|d ds IH]; intros acc Hacc Hd; [assumption|].
  cbn [forallb] in Hd. cbn [fold_left].
  apply andb_prop in Hd as [Hd Hds]. apply IH; [|assumption].
  unfold cp_digit in Hd. apply andb_prop in Hd as [Hlo _].
  apply N.leb_le in Hlo. lia.
Qed.

Lemma int_bytes_nonneg g : forallb digit g = true -> 0 <= int_bytes g.
Proof.
  intros H. apply int_of_digits_nonneg.
  rewrite forallb_forall in *. intros c Hc.
  apply in_map_iff in Hc as (b & <- & Hb). exact (H b Hb).
Qed.

Lemma dict_set_set {K V} (dec : forall a b : K, {a = b} + {a <> b})
    (k : K) (v1 v2 : V) d :
  dict_set dec k v2 (dict_set dec k v1 d) = dict_set dec k v2 d.
Proof.
  induction d as [|[k0 v0] d IH]; simpl.
  - destruct (dec k k); [reflexivity | congruence].
  - destruct (dec k k0) as [->|Hne]; simpl.
    + destruct (dec k0 k0); [reflexivity | congruence].
    + destruct (dec k k0); [congruence|]. now rewrite IH.
Qed.

(** What one line of a schema document does when it does not raise. *)
Lemma geo_sas_line_cases l G G' :
  geo_sas_line l G = Returned G' ->
  (exists m c nm,
      re_match labelpat (strip l) = Some m
      /\ group_decode 2 m = Returned c /\ group_decode 3 m = Returned nm
      /\ G' = dict_set str_eq_dec c
                {| name := nm; start := None; end_ := None |} G)
  \/ (exists m c f g2 g3,
         re_match labelpat (strip l) = None
         /\ re_match fieldspat (strip l) = Some m
         /\ group_decode 1 m = Returned c
         /\ group 2 m = Some g2 /\ group 3 m = Some g3
         /\ forallb digit g2 = true /\ forallb digit g3 = true
         /\ dict_get str_eq_dec c G = Some f
         /\ G' = dict_set str_eq_dec c
                   {| name := name f; start := Some (int_bytes g2 - 1);
                      end_ := Some (int_bytes g3) |} G)
  \/ (re_match labelpat (strip l) = None
      /\ re_match fieldspat (strip l) = None /\ G' = G).
Proof.
  unfold geo_sas_line. intros H.
  destruct (re_match labelpat (strip l)) as [m|] eqn:Hl.
  - left. destruct (group_decode 2 m) as [c|] eqn:E2; simpl in H; [|discriminate].
    destruct (group_decode 3 m) as [nm|] eqn:E3; simpl in H; [|discriminate].
    injection H as <-. exists m, c, nm. repeat split; auto.
  - destruct (re_match fieldspat (strip l)) as [m|] eqn:Hf.
    + right; left.
      destruct (fieldspat_inv _ Hf)
        as (g1 & g2 & g3 & post & Em & _ & _ & Hd2 & Hd3 & _).
      destruct (group_decode 1 m) as [c|] eqn:E1; simpl in H; [|discriminate].
      assert (group 2 m = Some g2 /\ group 3 m = Some g3) as [E2 E3]
        by (rewrite Em; split; reflexivity).
      unfold group_bytes in H. rewrite E2, E3 in H. simpl in H.
      destruct (dict_get str_eq_dec c G) as [f|] eqn:Ec;
        [rewrite (get_str_Some _ _ Ec) in H
        |rewrite (get_str_None _ _ Ec) in H]; simpl in H; [|discriminate].
      rewrite (get_str_Some _ _ (dict_get_set_same _ _ _ _)) in H.
      simpl in H. rewrite dict_set_set in H. injection H as <-.
      exists m, c, f, g2, g3. repeat split; auto.
    + right; right. injection H as <-. repeat split; reflexivity.
Qed.

(** X4: the schema builder keeps this invariant: every descriptor has
    both offsets or neither, with start >= -1 and end >= 0. *)
Theorem parse_geo_sas_lines_ranges (lines : list bytes) (G G' : GeoFields) :
  parse_geo_sas_lines lines G = Returned G' ->
  (forall c f, In (c, f) G -> range_ok f) ->
  forall c f, In (c, f) G' -> range_ok f.
Proof.
  intros H HG.
  refine (@for_each_invariant _ _ geo_sas_line
            (fun G0 : GeoFields => forall c f, In (c, f) G0 -> range_ok f)
            lines _ G G' HG H).
  intros l s s' _ Hs Hl c f Hin.
  apply geo_sas_line_cases in Hl
    as [(m & c0 & nm & _ & _ & _ & ->)
       |[(m & c0 & f0 & g2 & g3 & _ & _ & _ & _ & _ & H2 & H3 & _ & ->)
        |(_ & _ & ->)]].
  - apply In_dict_set in Hin as [[= -> ->]|Hin]; [|eauto].
    left. split; reflexivity.
  - apply In_dict_set in Hin as [[= -> ->]|Hin]; [|eauto].
    right. exists (int_bytes g2 - 1), (int_bytes g3). unfold has_range. simpl.
    pose proof (int_bytes_nonneg _ H2). pose proof (int_bytes_nonneg _ H3).
    repeat split; lia.
  - eauto.
Qed.

Lemma parse_geo_sas_lines_ranges_witness :
  range_ok {| name := U "a"; start := Some (-1); end_ := Some 3 |}.
Proof.
  apply (@parse_geo_sas_lines_ranges [B "A='a'"; B "A $ 0-3"] []
           zero_start_schema) with (c := U "A").
  - vm_compute. reflexivity.
  - intros c f [].
  - left. reflexivity.
Defined.

Lemma first_seen_app l1 : forall seen l2,
  first_seen seen (l1 ++ l2)
  = first_seen seen l1 ++ first_seen (seen ++ first_seen seen l1) l2.
Proof.
  induction l1 as [|x l1 IH]; intros seen l2; simpl.
  - now rewrite app_nil_r.
  - destruct (in_dec str_eq_dec x seen); [apply IH|].
    simpl. rewrite IH. f_equal. now rewrite <- app_assoc.
Qed.

Lemma keys_geo_sas_line l G G' :
  geo_sas_line l G = Returned G' ->
  keys G' = keys G ++ first_seen (keys G) (label_code l).
Proof.
  intros H. unfold label_code.
  apply geo_sas_line_cases in H
    as [(m & c & nm & -> & -> & _ & ->)
       |[(m & c & f & g2 & g3 & -> & _ & _ & _ & _ & _ & _ & Hf & ->)
        |(-> & _ & ->)]]; simpl.
  - rewrite keys_dict_set. destruct (in_dec str_eq_dec c (keys G)) as [I|I].
    + apply (dict_mem_true str_eq_dec) in I. rewrite I. now rewrite app_nil_r.
    + destruct (dict_mem str_eq_dec c G) eqn:E; [|reflexivity].
      apply dict_mem_true in E. contradiction.
  - rewrite keys_dict_set. unfold dict_mem. rewrite Hf. now rewrite app_nil_r.
  - now rewrite app_nil_r.
Qed.

(** X5: the codes of a built schema are those it had, followed by the
    codes of the label lines in the order of their first declaration; a
    range line adds no code. *)
Theorem parse_geo_sas_lines_key_order (lines : list bytes) (G G' : GeoFields) :
  parse_geo_sas_lines lines G = Returned G' ->
  keys G' = keys G ++ first_seen (keys G) (label_codes lines).
Proof.
  unfold parse_geo_sas_lines, label_codes. revert G.
  induction lines as [|l lines IH]; intros G; simpl.
  - intros [= <-]. now rewrite app_nil_r.
  - destruct (geo_sas_line l G) as [G1|] eqn:E; simpl; [|discriminate].
    intros H. apply IH in H. apply keys_geo_sas_line in E.
    rewrite H, E, first_seen_app, <- app_assoc. reflexivity.
Qed.

Lemma parse_geo_sas_lines_key_order_witness :
  keys unranged_schema = keys (@nil (str * geofield))
    ++ first_seen (keys (@nil (str * geofield)))
         (label_codes [B "COUNTY='County'"; B "TRACT='Tract'"; B "COUNTY $ 4-6";
                       B "BLOCK='Block'"; B "COUNTY='County'";
                       B "COUNTY $ 4-6"; B "BLOCK $ 7-7"]).
Proof.
  apply (@parse_geo_sas_lines_key_order
           [B "COUNTY='County'"; B "TRACT='Tract'"; B "COUNTY $ 4-6";
            B "BLOCK='Block'"; B "COUNTY='County'";
            B "COUNTY $ 4-6"; B "BLOCK $ 7-7"] [] unranged_schema).
  vm_compute. reflexivity.
Defined.

Lemma geo_sas_line_other l c G G' :
  geo_sas_line l G = Returned G' -> ~ declares l c -> ~ field_decl l c ->
  dict_get str_eq_dec c G' = dict_get str_eq_dec c G.
Proof.
  intros H Hd Hf.
  apply geo_sas_line_cases in H
    as [(m & c0 & nm & Hm & H2 & _ & ->)
       |[(m & c0 & f & g2 & g3 & _ & Hm & H1 & _ & _ & _ & _ & _ & ->)
        |(_ & _ & ->)]]; [| |reflexivity].
  - apply dict_get_set_other. intros ->. apply Hd. exists m. auto.
  - apply dict_get_set_other. intros ->. apply Hf. exists m. auto.
Qed.

(** After a label line for [c], and until a range line for [c], the
    descriptor of [c] has no offsets. *)
Lemma geo_sas_line_label_resets l c G G' :
  geo_sas_line l G = Returned G' -> declares l c ->
  exists f, dict_get str_eq_dec c G' = Some f
            /\ start f = None /\ end_ f = None.
Proof.
  intros H (m & Hm & Hc).
  apply geo_sas_line_cases in H
    as [(m' & c0 & nm & Hm' & H2 & _ & ->)
       |[(m' & c0 & f & g2 & g3 & Hn & _)|(Hn & _)]];
    try congruence.
  rewrite Hm in Hm'. injection Hm' as <-. rewrite Hc in H2. injection H2 as <-.
  rewrite dict_get_set_same. eauto.
Qed.

Lemma geo_sas_line_keeps_unranged l c G G' :
  geo_sas_line l G = Returned G' -> ~ field_decl l c ->
  (exists f, dict_get str_eq_dec c G = Some f
             /\ start f = None /\ end_ f = None) ->
  exists f, dict_get str_eq_dec c G' = Some f
            /\ start f = None /\ end_ f = None.
Proof.
  intros H Hf HG.
  pose proof H as Hcases.
  apply geo_sas_line_cases in Hcases
    as [(m & c0 & nm & Hm & H2 & _ & E)
       |[(m & c0 & f & g2 & g3 & _ & Hm & H1 & _ & _ & _ & _ & _ & E)
        |(_ & _ & ->)]]; [| |assumption].
  - destruct (str_eq_dec c0 c) as [->|Hne].
    + apply (@geo_sas_line_label_resets l c G G' H). exists m. auto.
    + subst G'. now rewrite dict_get_set_other.
  - subst G'. rewrite dict_get_set_other; [assumption|].
    intros ->. apply Hf. exists m. auto.
Qed.

Lemma parse_geo_line_stops line G pre code post f :
  keys G = pre ++ code :: post ->
  (forall c, In c pre ->
             exists f' a b, dict_get str_eq_dec c G = Some f' /\ has_range f' a b) ->
  dict_get str_eq_dec code G = Some f -> unranged f ->
  parse_geo_line line G
  = (Returned (assign_all (geo_values line G pre) []), [PrintKeyError code f]).
Proof.
  intros Ek Hpre Hf Hun.
  unfold parse_geo_line. rewrite Ek, geo_line_loop_prefix by assumption.
  simpl. destruct (geo_slice_defective line G code Hf Hun) as [k ->].
  now rewrite (get_str_Some _ _ Hf).
Qed.

(** X6: when a label line for c is followed by no range line for c, the
    built schema holds c without offsets (a range declared before the
    label line is lost), and decoding any line against it prints a
    message and returns a record without c. *)
Theorem label_after_range_loses_range
    (pre post : list bytes) (l : bytes) (c : str) (G G' : GeoFields) :
  declares l c ->
  (forall l', In l' post -> ~ field_decl l' c) ->
  parse_geo_sas_lines (pre ++ l :: post) G = Returned G' ->
  (exists f, dict_get str_eq_dec c G' = Some f
             /\ start f = None /\ end_ f = None)
  /\ forall line,
      exists d ev,
        parse_geo_line line G' = (Returned d, ev)
        /\ ~ In c (keys d) /\ ev <> [].
Proof.
  intros Hd Hpost H.
  assert (exists f, dict_get str_eq_dec c G' = Some f
                    /\ start f = None /\ end_ f = None) as Hc.
  { unfold parse_geo_sas_lines in H. rewrite for_each_app in H.
    destruct (for_each geo_sas_line pre G) as [G0|]; simpl in H; [|discriminate].
    destruct (geo_sas_line l G0) as [G1|] eqn:El; simpl in H; [|discriminate].
    refine (@for_each_invariant _ _ geo_sas_line
              (fun G2 : GeoFields =>
                 exists f, dict_get str_eq_dec c G2 = Some f
                           /\ start f = None /\ end_ f = None)
              post _ G1 G' (@geo_sas_line_label_resets l c G0 G1 El Hd) H).
    intros l' s s' Hl' Hs Hstep.
    exact (@geo_sas_line_keeps_unranged l' c s s' Hstep (Hpost l' Hl') Hs). }
  split; [exact Hc|]. intros line.
  destruct Hc as (f & Hf & Hs & He).
  destruct (first_unranged G' (keys G') (fun k Hk => Hk))
    as [Hall | (p & code & q & f' & Ek & Hp & Hf' & Hun)].
  - exfalso. destruct (Hall c) as (f0 & a & b & Hf0 & [Ha _]).
    + apply dict_get_Some_In in Hf. change c with (fst (c, f)). now apply in_map.
    + congruence.
  - rewrite (@parse_geo_line_stops line G' p code q f' Ek Hp Hf' Hun).
    do 2 eexists. split; [reflexivity|]. split; [|discriminate].
    rewrite keys_geo_values, In_first_seen. intros [Hin _].
    destruct (Hp c Hin) as (f0 & a & b & Hf0 & [Ha _]). congruence.
Qed.

Lemma label_after_range_loses_range_witness :
  (exists f, dict_get str_eq_dec COUNTY
               [(COUNTY, {| name := U "County"; start := None; end_ := None |})]
             = Some f
             /\ start f = None /\ end_ f = None)
  /\ forall line,
      exists d ev,
        parse_geo_line line
          [(COUNTY, {| name := U "County"; start := None; end_ := None |})]
        = (Returned d, ev)
        /\ ~ In COUNTY (keys d) /\ ev <> [].
Proof.
  apply (@label_after_range_loses_range
           [B "COUNTY='County'"; B "COUNTY $ 4-6"] [B "* end of labels"]
           (B "LABEL COUNTY='County'") COUNTY []).
  - eexists. split; vm_compute; reflexivity.
  - intros l' [<-|[]] (m & Hm & _). vm_compute in Hm. discriminate.
  - vm_compute. reflexivity.
Defined.

(** X7: the offsets of a code are those of its last range line: when no
    later line is a label or range line for c, the built schema holds for c
    the start [int(group 2) - 1] and the end [int(group 3)] of that
    line. *)
Theorem last_range_line_sets_offsets
    (pre post : list bytes) (l : bytes) (m : captures byte) (c : str)
    (g2 g3 : bytes) (G G' : GeoFields) :
  re_match fieldspat (strip l) = Some m ->
  group_decode 1 m = Returned c ->
  group 2 m = Some g2 -> group 3 m = Some g3 ->
  (forall l', In l' post -> ~ declares l' c /\ ~ field_decl l' c) ->
  parse_geo_sas_lines (pre ++ l :: post) G = Returned G' ->
  exists f,
    dict_get str_eq_dec c G' = Some f
    /\ has_range f (int_bytes g2 - 1) (int_bytes g3)
    /\ -1 <= int_bytes g2 - 1 /\ 0 <= int_bytes g3.
Proof.
  intros Hm Hc H2 H3 Hpost H.
  unfold parse_geo_sas_lines in H. rewrite for_each_app in H.
  destruct (for_each geo_sas_line pre G) as [G0|]; simpl in H; [|discriminate].
  destruct (geo_sas_line l G0) as [G1|] eqn:El; simpl in H; [|discriminate].
  assert (exists f, dict_get str_eq_dec c G1 = Some f
                    /\ has_range f (int_bytes g2 - 1) (int_bytes g3)
                    /\ -1 <= int_bytes g2 - 1 /\ 0 <= int_bytes g3) as H1.
  { apply geo_sas_line_cases in El
      as [(m' & c0 & nm & Hm' & _)
         |[(m' & c0 & f & h2 & h3 & _ & Hm' & Hc' & E2 & E3 & D2 & D3 & _ & ->)
          |(_ & Hn & _)]]; [|  |congruence].
    - rewrite (fieldspat_not_labelpat _ Hm) in Hm'. discriminate.
    - rewrite Hm in Hm'. injection Hm' as <-.
      rewrite Hc in Hc'. injection Hc' as <-.
      rewrite H2 in E2. injection E2 as <-. rewrite H3 in E3. injection E3 as <-.
      rewrite dict_get_set_same. eexists. split; [reflexivity|].
      pose proof (int_bytes_nonneg _ D2). pose proof (int_bytes_nonneg _ D3).
      unfold has_range. simpl. repeat split; lia. }
  refine (@for_each_invariant _ _ geo_sas_line
            (fun G2 : GeoFields =>
               exists f, dict_get str_eq_dec c G2 = Some f
                         /\ has_range f (int_bytes g2 - 1) (int_bytes g3)
                         /\ -1 <= int_bytes g2 - 1 /\ 0 <= int_bytes g3)
            post _ G1 G' H1 H).
  intros l' s s' Hl' Hs Hstep. destruct (Hpost l' Hl') as [Hnd Hnf].
  now rewrite (@geo_sas_line_other l' c s s' Hstep Hnd Hnf).
Qed.

Lemma last_range_line_sets_offsets_witness :
  exists f,
    dict_get str_eq_dec COUNTY county_schema = Some f
    /\ has_range f (int_bytes (B "4") - 1) (int_bytes (B "6"))
    /\ -1 <= int_bytes (B "4") - 1 /\ 0 <= int_bytes (B "6").
Proof.
  apply (@last_range_line_sets_offsets
           [B "COUNTY='County'"; B "COUNTY $ 1-2"] [B "STATE='State'"]
           (B "  COUNTY $ 4-6  ")
           [(3%nat, B "6"); (2%nat, B "4"); (1%nat, B "COUNTY")]
           COUNTY (B "4") (B "6") []
           (county_schema
              ++ [(U "STATE", {| name := U "State"; start := None; end_ := None |})])).
  - vm_compute. reflexivity.
  - vm_compute. reflexivity.
  - reflexivity.
  - reflexivity.
  - intros l' [<-|[]]. split.
    + intros (m & Hm & Hc). vm_compute in Hm. injection Hm as <-.
      vm_compute in Hc. discriminate.
    + intros (m & Hm & _). vm_compute in Hm. discriminate.
  - vm_compute. reflexivity.
Defined.

(** ** White space around schema lines *)

Lemma lstrip_spaces ws x :
  forallb is_space ws = true -> lstrip (ws ++ x) = lstrip x.
Proof.
  induction ws as [|c ws IH]; simpl; [reflexivity|].
  intros H. apply andb_prop in H as [-> H]. auto.
Qed.

Lemma lstrip_nil_spaces l : lstrip l = [] -> forallb is_space l = true.
Proof.
  induction l as [|c l IH]; simpl; [reflexivity|].
  destruct (is_space c); [auto | discriminate].
Qed.

Lemma lstrip_cons_app l c t x :
  lstrip l = c :: t -> lstrip (l ++ x) = (c :: t) ++ x.
Proof.
  induction l as [|a l IH]; simpl; [discriminate|].
  destruct (is_space a); [auto|]. now intros [= -> ->].
Qed.

Lemma strip_spaces ws1 l ws2 :
  forallb is_space ws1 = true -> forallb is_space ws2 = true ->
  strip (ws1 ++ l ++ ws2) = strip l.
Proof.
  intros H1 H2. unfold strip. rewrite (lstrip_spaces _ _ H1).
  destruct (lstrip l) as [|c t] eqn:E.
  - apply lstrip_nil_spaces in E.
    rewrite (lstrip_spaces _ _ E), <- (app_nil_r ws2), (lstrip_spaces _ _ H2).
    reflexivity.
  - rewrite (lstrip_cons_app _ _ E), rev_app_distr. f_equal.
    apply lstrip_spaces. rewrite forallb_forall in *.
    intros b Hb. apply H2. now apply in_rev.
Qed.

(** X8: ASCII white space at the start and at the end of a schema line
    (spaces, tabs, the carriage return of a CRLF line end) does not matter
    to the schema builder. *)
Theorem geo_sas_line_ignores_outer_space (ws1 ws2 l : bytes) (G : GeoFields) :
  forallb is_space ws1 = true -> forallb is_space ws2 = true ->
  geo_sas_line (ws1 ++ l ++ ws2) G = geo_sas_line l G.
Proof.
  intros H1 H2. unfold geo_sas_line. now rewrite (@strip_spaces ws1 l ws2 H1 H2).
Qed.

Lemma geo_sas_line_ignores_outer_space_witness :
  geo_sas_line (B "  " ++ B "COUNTY='County'" ++ [x0d; x09]) []
  = geo_sas_line (B "COUNTY='County'") [].
Proof.
  apply (@geo_sas_line_ignores_outer_space (B "  ") [x0d; x09]
           (B "COUNTY='County'") []); reflexivity.
Defined.

(** ** What the patterns accept *)

Section Greedy.
Variable A : Type.
Variable R : Type.
Implicit Types (p : A -> bool) (w s : list A) (k : list A -> option R).

(** A repetition that takes the run [w] and cannot take more: the next
    character is outside the class, or the bound is reached. *)
Lemma rep_max p w : forall lo hi s0 s k r,
  s0 = w ++ s ->
  forallb p w = true -> (lo <= length w)%nat ->
  (forall h, hi = Some h -> (length w <= h)%nat) ->
  match s with
  | [] => True
  | c :: _ => p c = false \/ hi = Some (length w)
  end ->
  k s = Some r ->
  rep p lo hi s0 k = Some r.
Proof.
  induction w as [|a w IH]; intros lo hi s0 s k r -> Hw Hlo Hhi Hstop Hk.
  - simpl in *. assert (lo = 0)%nat as -> by lia.
    destruct s as [|c s]; simpl; [assumption|].
    destruct Hstop as [-> | ->]; simpl; [assumption|].
    now rewrite andb_false_r.
  - simpl in Hw. apply andb_prop in Hw as [Ha Hw]. simpl.
    rewrite Ha. simpl.
    assert (room hi = true) as ->.
    { destruct hi as [[|h]|]; try reflexivity.
      specialize (Hhi _ eq_refl). simpl in Hhi. lia. }
    rewrite (IH (Nat.pred lo) (option_map Nat.pred hi) (w ++ s) s k r);
      auto.
    + simpl in Hlo. lia.
    + intros h Hh. destruct hi as [h0|]; [|discriminate].
      injection Hh as <-. specialize (Hhi _ eq_refl). simpl in Hhi. lia.
    + destruct s as [|c s]; [exact I|]. destruct Hstop as [H | ->]; [now left|].
      right. reflexivity.
Qed.

Lemma rep_none p s : forall k,
  (forall w s', s = w ++ s' -> forallb p w = true -> k s' = None) ->
  rep p 0 None s k = None.
Proof.
  induction s as [|c s IH]; intros k H; simpl.
  - apply (H [] []); reflexivity.
  - assert (k (c :: s) = None) as Hk by (apply (H [] (c :: s)); reflexivity).
    destruct (p c) eqn:Hc; simpl; [|assumption].
    rewrite IH; [assumption|].
    intros w s' -> Hw. apply (H (c :: w) s'); [reflexivity|].
    simpl. now rewrite Hc.
Qed.

(** A greedy unbounded repetition gives back characters until the rest of
    the pattern matches: it stops at the last place where it does. *)
Lemma rep_backtrack p w : forall s0 s k r,
  s0 = w ++ s ->
  forallb p w = true ->
  k s = Some r ->
  (forall w' s', s = w' ++ s' -> w' <> [] -> forallb p w' = true ->
                 k s' = None) ->
  rep p 0 None s0 k = Some r.
Proof.
  induction w as [|a w IH]; intros s0 s k r -> Hw Hk Hlater.
  - simpl. destruct s as [|c s]; simpl; [assumption|].
    destruct (p c) eqn:Hc; simpl; [|assumption].
    rewrite rep_none; [assumption|].
    intros w' s' -> Hw'. apply (Hlater (c :: w') s'); [reflexivity|discriminate|].
    simpl. now rewrite Hc.
  - simpl in Hw. apply andb_prop in Hw as [Ha Hw]. simpl. rewrite Ha. simpl.
    now rewrite (IH (w ++ s) s k r).
Qed.

Lemma rep_one_mismatch p hi s k :
  match s with
  | [] => True
  | c :: _ => p c = false
  end ->
  rep p 1 hi s k = None.
Proof. destruct s as [|c s]; simpl; [reflexivity|]. now intros ->. Qed.
End Greedy.

Lemma firstn_consumed {A} (w s : list A) :
  firstn (length (w ++ s) - length s) (w ++ s) = w.
Proof.
  rewrite length_app, Nat.add_sub, firstn_app, Nat.sub_diag, firstn_all.
  simpl. apply app_nil_r.
Qed.

(** X9: what [pat] extracts from a line of the form spaces, code, equals
    sign, apostrophe, spaces, text, apostrophe, tail, where the tail has no
    apostrophe: the code, and the whole text up to the last apostrophe of
    the line, without the spaces before it; the text may contain
    apostrophes. *)
Theorem pat_extracts_to_last_quote
    (spaces spaces2 ds rest desc tail : bytes) (u : byte) :
  forallb (Byte.eqb sp) spaces = true ->
  upper u = true ->
  forallb digit ds = true -> length ds = 3%nat ->
  forallb alnum rest = true -> (length rest = 3 \/ length rest = 4)%nat ->
  forallb (Byte.eqb sp) spaces2 = true ->
  match desc with [] => True | c :: _ => c <> sp end ->
  forallb dot desc = true ->
  ~ In quote tail ->
  re_match pat
    (spaces ++ u :: ds ++ rest ++ equals :: quote :: spaces2 ++ desc
       ++ quote :: tail)
  = Some [(2%nat, desc); (1%nat, u :: ds ++ rest)].
Proof.
  intros Hsp Hu Hds Hds3 Hrest Hrest34 Hsp2 Hdesc0 Hdesc Htail.
  unfold re_match, pat, star, chr, one. cbn [rmatch].
  eapply (@rep_max _ _ _ spaces); [reflexivity|assumption|simpl; lia|discriminate| |].
  { left. destruct u; try discriminate; reflexivity. }
  eapply (@rep_max _ _ _ [u]); [reflexivity|simpl; now rewrite Hu|simpl; lia| | |].
  { intros h [= <-]. simpl. lia. }
  { destruct (ds ++ rest ++ _); [exact I| now right]. }
  eapply (@rep_max _ _ _ ds); [reflexivity|assumption|lia| | |].
  { intros h [= <-]. lia. }
  { destruct (rest ++ _); [exact I|]. right. now rewrite Hds3. }
  eapply (@rep_max _ _ _ rest); [reflexivity|assumption|lia| | |].
  { intros h [= <-]. lia. }
  { left. reflexivity. }
  replace (u :: ds ++ rest ++ equals :: quote :: spaces2 ++ desc ++ quote :: tail)
    with ((u :: ds ++ rest)
            ++ equals :: quote :: spaces2 ++ desc ++ quote :: tail)
    by (simpl; now rewrite <- app_assoc).
  rewrite firstn_consumed.
  eapply (@rep_max _ _ _ [equals]); [reflexivity|reflexivity|simpl; lia| | |].
  { intros h [= <-]. simpl. lia. }
  { now right. }
  eapply (@rep_max _ _ _ [quote]); [reflexivity|reflexivity|simpl; lia| | |].
  { intros h [= <-]. simpl. lia. }
  { destruct (spaces2 ++ _); [exact I | now right]. }
  eapply (@rep_max _ _ _ spaces2); [reflexivity|assumption|simpl; lia|discriminate| |].
  { destruct desc as [|c desc]; simpl; [now left|]. left.
    destruct (Byte.eqb sp c) eqn:E; [|reflexivity].
    apply Byte.byte_dec_bl in E. now subst. }
  eapply (@rep_backtrack _ _ _ desc); [reflexivity|assumption| |].
  - eapply (@rep_max _ _ _ [quote]); [reflexivity|reflexivity|simpl; lia| | |].
    + intros h [= <-]. simpl. lia.
    + destruct tail; [exact I | now right].
    + now rewrite firstn_consumed.
  - intros w' s' E Hw' _. apply rep_one_mismatch.
    destruct w' as [|b w']; [congruence|]. injection E as _ ->.
    destruct s' as [|c s']; [exact I|].
    destruct (Byte.eqb quote c) eqn:Ec; [|reflexivity].
    apply Byte.byte_dec_bl in Ec. subst c. exfalso. apply Htail.
    apply in_app_iff. right. now left.
Qed.

Lemma pat_extracts_to_last_quote_witness :
  re_match pat
    (B "  " ++ "H"%byte :: B "016" ++ B "H018" ++ equals :: quote :: B " "
       ++ B "Householder's age" ++ quote :: B " ;")
  = Some [(2%nat, B "Householder's age"); (1%nat, "H"%byte :: B "016" ++ B "H018")].
Proof.
  apply (@pat_extracts_to_last_quote (B "  ") (B " ") (B "016") (B "H018")
           (B "Householder's age") (B " ;") "H"%byte);
    try reflexivity.
  - now right.
  - simpl. discriminate.
  - vm_compute. intuition discriminate.
Defined.

(** ** The archive loop *)

Lemma matches_cp_inv x w c c' :
  matches (cp x) w c c' -> w = [x] /\ c' = c.
Proof.
  intros H. apply matches_one_inv in H as (a & -> & E & ->).
  apply N.eqb_eq in E. now subst.
Qed.

Ltac next_cp H :=
  let w := fresh "w" in
  let c := fresh "c" in
  let Hm := fresh "Hm" in
  next_cat H w c Hm; apply matches_cp_inv in Hm as (-> & ->).

Lemma filepat_inv s m :
  re_match filepat s = Some m ->
  exists d1 d2 d3 c rest,
    s = 115%N :: 102%N :: d1 :: d2 :: d3 :: c :: 115%N :: 97%N :: 115%N :: rest
    /\ cp_digit d1 = true /\ cp_digit d2 = true /\ cp_digit d3 = true
    /\ c <> 10%N
    /\ m = [(1%nat, [d1; d2; d3])].
Proof.
  intros H. apply re_match_sound in H as (w & s' & -> & H).
  unfold filepat in H.
  next_cp H. next_cp H.
  next_cat H g c1 Hg.
  apply matches_grp_inv in Hg as (c2 & -> & Hg).
  apply matches_rep_inv in Hg as (-> & Hd & Hlo & Hhi).
  specialize (Hhi _ eq_refl).
  next_cat H wc c3 Hc. apply matches_one_inv in Hc as (c & -> & Hc & ->).
  next_cp H. next_cp H. apply matches_cp_inv in H as (-> & ->).
  destruct g as [|d1 [|d2 [|d3 [|d4 g]]]]; simpl in Hlo, Hhi; try lia.
  simpl in Hd. repeat rewrite andb_true_iff in Hd.
  destruct Hd as (H1 & H2 & H3 & _).
  exists d1, d2, d3, c, s'. repeat split; auto.
  unfold cp_dot in Hc. intros ->. discriminate.
Qed.

(** X10: the member-name pattern accepts exactly the names that begin
    with sf, three ASCII digits, one character that is not a newline, and
    sas, whatever follows; the match holds the three digits. *)
Theorem filepat_accepts (s : str) (m : captures N) :
  re_match filepat s = Some m
  <-> exists d1 d2 d3 c rest,
      s = 115%N :: 102%N :: d1 :: d2 :: d3 :: c :: 115%N :: 97%N :: 115%N :: rest
      /\ cp_digit d1 = true /\ cp_digit d2 = true /\ cp_digit d3 = true
      /\ c <> 10%N
      /\ m = [(1%nat, [d1; d2; d3])].
Proof.
  split; [apply filepat_inv|].
  intros (d1 & d2 & d3 & c & rest & -> & H1 & H2 & H3 & Hc & ->).
  assert (cp_dot c = true) as Hdot.
  { unfold cp_dot. destruct (c =? 10)%N eqn:E; [|reflexivity].
    apply N.eqb_eq in E. contradiction. }
  unfold re_match, filepat, cp, one. cbn [rmatch].
  assert (forall h : nat, Some 1%nat = Some h -> (length [115%N] <= h)%nat) as Hone.
  { intros h [= <-]. simpl. lia. }
  assert (forall (x : N) (l : list N),
             match l with [] => True
                     | y :: _ => N.eqb x y = false \/ Some 1%nat = Some (length [x])
             end) as Hstop1.
  { intros x [|y l]; [exact I | now right]. }
  eapply (@rep_max _ _ _ [115%N]);
    [reflexivity|reflexivity|simpl; lia|exact Hone|apply Hstop1|].
  eapply (@rep_max _ _ _ [102%N]);
    [reflexivity|reflexivity|simpl; lia|exact Hone|apply Hstop1|].
  eapply (@rep_max _ _ _ [d1; d2; d3]); [reflexivity| |simpl; lia| | |].
  { simpl. now rewrite H1, H2, H3. }
  { intros h [= <-]. simpl. lia. }
  { now right. }
  eapply (@rep_max _ _ _ [c]); [reflexivity| |simpl; lia|exact Hone| |].
  { simpl. now rewrite Hdot. }
  { now right. }
  eapply (@rep_max _ _ _ [115%N]);
    [reflexivity|reflexivity|simpl; lia|exact Hone|apply Hstop1|].
  eapply (@rep_max _ _ _ [97%N]);
    [reflexivity|reflexivity|simpl; lia|exact Hone|apply Hstop1|].
  eapply (@rep_max _ _ _ [115%N]);
    [reflexivity|reflexivity|simpl; lia|exact Hone|apply Hstop1|].
  replace (d1 :: d2 :: d3 :: c :: 115%N :: 97%N :: 115%N :: rest)
    with ([d1; d2; d3] ++ c :: 115%N :: 97%N :: 115%N :: rest) by reflexivity.
  now rewrite firstn_consumed.
Qed.

Lemma int_of_three_digits d1 d2 d3 :
  cp_digit d1 = true -> cp_digit d2 = true -> cp_digit d3 = true ->
  0 <= int_of_digits [d1; d2; d3] <= 999.
Proof.
  unfold cp_digit, int_of_digits. cbn [fold_left]. intros H1 H2 H3.
  apply andb_prop in H1 as [L1 U1]. apply andb_prop in H2 as [L2 U2].
  apply andb_prop in H3 as [L3 U3].
  apply N.leb_le in L1, U1, L2, U2, L3, U3. lia.
Qed.

Lemma member_fileno_range lower nm n :
  member_fileno lower nm = Some n -> 0 <= n <= 999.
Proof.
  unfold member_fileno.
  destruct (negb _); [discriminate|].
  destruct (str_eq_dec nm (U "sf1geo.sas")); [discriminate|].
  destruct (re_match filepat (lower nm)) as [m|] eqn:E; [|discriminate].
  apply filepat_inv in E as (d1 & d2 & d3 & c & rest & _ & H1 & H2 & H3 & _ & ->).
  simpl. intros [= <-]. now apply int_of_three_digits.
Qed.

(** What a member does to the globals when it does not raise. *)
Lemma zip_member_cases lower read nm st st' :
  zip_member lower read nm st = Returned st' ->
  (is_schema_member lower nm = false /\ st' = st)
  \/ (nm = U "sf1geo.sas" /\ is_schema_member lower nm = true
      /\ census_codes st' = census_codes st
      /\ parse_geo_sas_lines (split_nl (read nm)) (geo_fields st)
         = Returned (geo_fields st'))
  \/ (exists n cd,
         nm <> U "sf1geo.sas" /\ is_schema_member lower nm = true
         /\ member_fileno lower nm = Some n
         /\ code_dict_of (split_nl (read nm)) = Returned cd
         /\ census_codes st' = dict_set Z.eq_dec n cd (census_codes st)
         /\ geo_fields st' = geo_fields st).
Proof.
  unfold zip_member, is_schema_member, member_fileno. intros H.
  destruct (endswith N.eq_dec (lower nm) (U ".sas")); simpl in *;
    [|left; split; [reflexivity | now injection H as <-]].
  destruct (str_eq_dec nm (U "sf1geo.sas")) as [E|E].
  - right; left.
    destruct (parse_geo_sas_lines _ _) as [G|]; simpl in H; [|discriminate].
    injection H as <-. simpl. auto.
  - destruct (re_match filepat (lower nm)) as [m|];
      [|left; split; [reflexivity | now injection H as <-]].
    destruct (group 1 m) as [g|]; [|discriminate].
    destruct (code_dict_of (split_nl (read nm))) as [cd|]; simpl in H;
      [|discriminate].
    injection H as <-. right; right. exists (int_of_digits g), cd. simpl. auto 7.
Qed.

Lemma dict_set_app_notin {K V} (dec : forall a b : K, {a = b} + {a <> b})
    (k : K) (v : V) d1 d2 :
  ~ In k (keys d1) -> dict_set dec k v (d1 ++ d2) = d1 ++ dict_set dec k v d2.
Proof.
  induction d1 as [|[k0 v0] d1 IH]; simpl; [reflexivity|].
  intros H. destruct (dec k k0) as [->|Hne]; [tauto|].
  rewrite IH; tauto.
Qed.

Lemma assign_all_app_notin ps : forall d1 d2,
  (forall c, In c (map fst ps) -> ~ In c (keys d1)) ->
  assign_all ps (d1 ++ d2) = d1 ++ assign_all ps d2.
Proof.
  induction ps as [|[c v] ps IH]; intros d1 d2 H; simpl; [reflexivity|].
  change (assign_all ps (dict_set str_eq_dec c v (d1 ++ d2))
          = d1 ++ assign_all ps (dict_set str_eq_dec c v d2)).
  rewrite dict_set_app_notin by (apply H; now left).
  apply IH. intros c' Hc'. apply H. now right.
Qed.

Lemma code_dict_of_entry_ok saslines cd :
  code_dict_of saslines = Returned cd -> entry_ok cd.
Proof.
  intros H. pose proof (keys_code_dict_of _ H) as Hk.
  apply for_each_saslines_pairs in H.
  assert (cd = header_code_dict ++ assign_all (sas_pairs saslines) []) as E.
  { rewrite H. rewrite <- (app_nil_r header_code_dict) at 1.
    apply assign_all_app_notin.
    intros c Hc. apply in_map_iff in Hc as ([c' d] & <- & Hc).
    apply sas_pairs_spec in Hc as (l & _ & He).
    change (keys header_code_dict) with header_codes.
    apply code_shape_not_header. now apply (extracts_shape He). }
  split.
  - rewrite E. reflexivity.
  - rewrite Hk. intros c Hc. change (skipn 5 (header_codes ++ ?x)) with x in Hc.
    apply In_first_seen in Hc as [Hc _].
    apply in_map_iff in Hc as ([c' d] & <- & Hc).
    apply sas_pairs_spec in Hc as (l & _ & He). now apply (extracts_shape He).
Qed.

(** X11: [codesFromZipFile] keeps this invariant of the catalog: every
    file number is between 0 and 999, and every entry is the five headers
    with their own descriptions followed by codes of the pattern's shape;
    no document can change or displace a header. *)
Theorem codesFromZipFile_entries_ok (lower : str -> str) (namelist : list str)
    (read : str -> bytes) (st st' : globals) :
  codesFromZipFile lower namelist read st = Returned st' ->
  catalog_entries_ok (census_codes st) ->
  catalog_entries_ok (census_codes st').
Proof.
  intros H Hok.
  refine (@for_each_invariant _ _ (zip_member lower read)
            (fun s => catalog_entries_ok (census_codes s))
            namelist _ st st' Hok H).
  intros nm s s' _ Hs Hstep.
  apply zip_member_cases in Hstep
    as [(_ & ->)|[(_ & _ & -> & _)|(n & cd & _ & _ & Hn & Hcd & -> & _)]];
    try assumption.
  intros fileno cd' Hin. apply In_dict_set in Hin as [[= -> ->]|Hin].
  - split; [eapply member_fileno_range; eauto | eapply code_dict_of_entry_ok; eauto].
  - now apply Hs.
Qed.

Lemma codesFromZipFile_entries_ok_witness :
  catalog_entries_ok
    [(1, header_code_dict ++ [(U "P000001", U "Total population")])].
Proof.
  apply (@codesFromZipFile_entries_ok ascii_lower [U "readme.txt"; U "SF001.SAS"]
           (fun _ => B "P000001='Total population'")
           {| census_codes := []; geo_fields := [] |}
           {| census_codes :=
                [(1, header_code_dict ++ [(U "P000001", U "Total population")])];
              geo_fields := [] |}).
  - vm_compute. reflexivity.
  - intros fileno cd [].
Defined.

(** X12: members that are not schema members (the name does not end in
    .sas in any letter case, or is neither sf1geo.sas nor matched by the
    member-name pattern) are skipped without an error: removing them from
    the archive changes nothing. *)
Theorem codesFromZipFile_skips_other_members (lower : str -> str)
    (namelist : list str) (read : str -> bytes) (st : globals) :
  codesFromZipFile lower (filter (is_schema_member lower) namelist) read st
  = codesFromZipFile lower namelist read st.
Proof.
  unfold codesFromZipFile. revert st.
  induction namelist as [|nm namelist IH]; intros st; simpl; [reflexivity|].
  destruct (is_schema_member lower nm) eqn:E; simpl.
  - destruct (zip_member lower read nm st); simpl; auto.
  - assert (zip_member lower read nm st = Returned st) as ->; [|apply IH].
    unfold is_schema_member in E. unfold zip_member.
    destruct (endswith N.eq_dec (lower nm) (U ".sas")); simpl in *;
      [|reflexivity].
    destruct (str_eq_dec nm (U "sf1geo.sas")); [discriminate|].
    destruct (re_match filepat (lower nm)); [discriminate | reflexivity].
Qed.

(** X13: the schema is built only from a member named exactly
    sf1geo.sas: without one, [codesFromZipFile] leaves [GeoFields] as it
    was. *)
Theorem codesFromZipFile_geo_frame (lower : str -> str) (namelist : list str)
    (read : str -> bytes) (st st' : globals) :
  ~ In (U "sf1geo.sas") namelist ->
  codesFromZipFile lower namelist read st = Returned st' ->
  geo_fields st' = geo_fields st.
Proof.
  unfold codesFromZipFile. revert st.
  induction namelist as [|nm namelist IH]; intros st Hn; simpl.
  - now intros [= <-].
  - destruct (zip_member lower read nm st) as [s1|] eqn:E; simpl; [|discriminate].
    intros H. rewrite (IH s1); [|intros I; apply Hn; now right | assumption].
    apply zip_member_cases in E
      as [(_ & ->)|[(-> & _)|(n & cd & _ & _ & _ & _ & _ & ->)]];
      try reflexivity.
    exfalso. apply Hn. now left.
Qed.

Lemma codesFromZipFile_geo_frame_witness :
  geo_fields
    {| census_codes :=
         [(1, header_code_dict ++ [(U "P000001", U "Total population")])];
       geo_fields := county_schema |}
  = geo_fields {| census_codes := []; geo_fields := county_schema |}.
Proof.
  apply (@codesFromZipFile_geo_frame ascii_lower [U "SF1GEO.SAS"; U "sf001.sas"]
           (fun _ => B "P000001='Total population'")).
  - simpl. intuition discriminate.
  - vm_compute. reflexivity.
Defined.

Lemma zip_member_fileno_frame lower read nm st st' n :
  zip_member lower read nm st = Returned st' ->
  member_fileno lower nm <> Some n ->
  dict_get Z.eq_dec n (census_codes st') = dict_get Z.eq_dec n (census_codes st).
Proof.
  intros H Hn.
  apply zip_member_cases in H
    as [(_ & ->)|[(_ & _ & -> & _)|(n' & cd & _ & _ & Hn' & _ & -> & _)]];
    try reflexivity.
  apply dict_get_set_other. congruence.
Qed.

(** X14: when several members have the same file number (sf001.sas and
    SF001.SAS, say), the catalog holds for that number the entry of the
    last of them, and members with other numbers do not touch it. *)
Theorem codesFromZipFile_last_document_wins (lower : str -> str)
    (pre post : list str) (nm : str) (n : Z) (read : str -> bytes)
    (st st' : globals) :
  member_fileno lower nm = Some n ->
  (forall nm', In nm' post -> member_fileno lower nm' <> Some n) ->
  codesFromZipFile lower (pre ++ nm :: post) read st = Returned st' ->
  exists cd,
    code_dict_of (split_nl (read nm)) = Returned cd
    /\ dict_get Z.eq_dec n (census_codes st') = Some cd.
Proof.
  intros Hn Hpost H. unfold codesFromZipFile in H. rewrite for_each_app in H.
  destruct (for_each (zip_member lower read) pre st) as [s0|]; simpl in H;
    [|discriminate].
  destruct (zip_member lower read nm s0) as [s1|] eqn:E; simpl in H;
    [|discriminate].
  assert (exists cd, code_dict_of (split_nl (read nm)) = Returned cd
                     /\ dict_get Z.eq_dec n (census_codes s1) = Some cd)
    as (cd & Hcd & H1).
  { apply zip_member_cases in E
      as [(Hs & _)|[(-> & _)|(n' & cd & _ & _ & Hn' & Hcd & -> & _)]].
    - exfalso. unfold is_schema_member in Hs. unfold member_fileno in Hn.
      destruct (endswith N.eq_dec (lower nm) (U ".sas")); simpl in *;
        [|discriminate].
      destruct (str_eq_dec nm (U "sf1geo.sas")); [discriminate|].
      destruct (re_match filepat (lower nm)); discriminate.
    - unfold member_fileno in Hn.
      destruct (negb _); [discriminate|].
      destruct (str_eq_dec (U "sf1geo.sas") (U "sf1geo.sas")); [discriminate|].
      congruence.
    - rewrite Hn in Hn'. injection Hn' as <-. exists cd.
      split; [assumption | apply dict_get_set_same]. }
  exists cd. split; [assumption|].
  refine (@for_each_invariant _ _ (zip_member lower read)
            (fun s => dict_get Z.eq_dec n (census_codes s) = Some cd)
            post _ s1 st' H1 H).
  intros nm' s s' Hin Hs Hstep.
  now rewrite (@zip_member_fileno_frame lower read nm' s s' n Hstep (Hpost nm' Hin)).
Qed.

Lemma codesFromZipFile_last_document_wins_witness :
  exists cd,
    code_dict_of (split_nl (B "P000001='second'")) = Returned cd
    /\ dict_get Z.eq_dec 1
         [(1, header_code_dict ++ [(U "P000001", U "second")]);
          (2, header_code_dict ++ [(U "P000001", U "third")])]
       = Some cd.
Proof.
  apply (@codesFromZipFile_last_document_wins ascii_lower [U "sf001.sas"]
           [U "sf002.sas"] (U "SF001.SAS") 1
           (fun nm => if str_eq_dec nm (U "sf001.sas") then B "P000001='first'"
                      else if str_eq_dec nm (U "SF001.SAS")
                           then B "P000001='second'"
                           else B "P000001='third'")
           {| census_codes := []; geo_fields := [] |}
           {| census_codes :=
                [(1, header_code_dict ++ [(U "P000001", U "second")]);
                 (2, header_code_dict ++ [(U "P000001", U "third")])];
              geo_fields := [] |}).
  - vm_compute. reflexivity.
  - intros nm' [<-|[]]. vm_compute. discriminate.
  - vm_compute. reflexivity.
Defined.

(** ** [parse_geo_file] *)

Lemma In_insert_sorted x l y : In y (insert_sorted x l) <-> y = x \/ In y l.
Proof.
  induction l as [|z l IH]; simpl; [intuition|].
  destruct (x <=? z); simpl; [intuition|]. rewrite IH. intuition.
Qed.

Lemma In_list_sort l y : In y (list_sort l) <-> In y l.
Proof.
  induction l as [|x l IH]; simpl; [tauto|].
  rewrite In_insert_sorted, IH. intuition.
Qed.

Lemma NoDup_insert_sorted x l :
  ~ In x l -> NoDup l -> NoDup (insert_sorted x l).
Proof.
  induction l as [|z l IH]; simpl; intros Hx ND.
  - constructor; [tauto | constructor].
  - destruct (x <=? z).
    + constructor; [simpl; tauto | assumption].
    + inversion ND; subst. constructor.
      * rewrite In_insert_sorted. intuition.
      * apply IH; tauto.
Qed.

Lemma NoDup_list_sort l : NoDup l -> NoDup (list_sort l).
Proof.
  induction l as [|x l IH]; simpl; intros ND; [constructor|].
  inversion ND; subst. apply NoDup_insert_sorted; [|auto].
  now rewrite In_list_sort.
Qed.

Lemma insert_sorted_increasing x l :
  ~ In x l -> StronglySorted Z.lt l -> StronglySorted Z.lt (insert_sorted x l).
Proof.
  induction l as [|z l IH]; simpl; intros Hx Hs.
  - constructor; constructor.
  - inversion Hs as [|? ? Hs' Hall]; subst.
    destruct (x <=? z) eqn:E.
    + apply Z.leb_le in E. assert (x < z) by lia.
      constructor; [assumption|]. constructor; [assumption|].
      rewrite Forall_forall in *. intros y Hy. specialize (Hall y Hy). lia.
    + apply Z.leb_gt in E. constructor; [apply IH; tauto|].
      rewrite Forall_forall in *. intros y Hy.
      apply In_insert_sorted in Hy as [->|Hy]; auto.
Qed.

Lemma list_sort_increasing l : NoDup l -> StronglySorted Z.lt (list_sort l).
Proof.
  induction l as [|x l IH]; simpl; intros ND; [constructor|].
  inversion ND; subst. apply insert_sorted_increasing; [|auto].
  now rewrite In_list_sort.
Qed.

Section GeoFileFacts.
Variable str_strip : str -> str.
Variable int_str : str -> option Z.

Lemma geo_file_loop_returned G lines : forall cs cs' out,
  geo_file_loop str_strip int_str G lines cs = (FReturned cs', out) ->
  (NoDup cs -> NoDup cs')
  /\ (forall n, In n cs'
                <-> In n cs
                    \/ exists line, In line lines
                                    /\ county_of str_strip int_str G line n).
Proof.
  induction lines as [|line lines IH]; intros cs cs' out; simpl.
  - intros [= <- <-]. split; [auto|]. intros n. split; [auto|].
    intros [H|(l & [] & _)]. assumption.
  - unfold county_of, county_text.
    destruct (parse_geo_line line G) as [r ev] eqn:Ep. simpl.
    destruct r as [geo|e]; [|discriminate].
    destruct (dict_get str_eq_dec COUNTY geo) as [v|] eqn:Eg; [|discriminate].
    simpl.
    destruct (str_strip v) as [|c0 ct] eqn:Es.
    + destruct (geo_file_loop str_strip int_str G lines cs) as [r' out'] eqn:El.
      intros [= -> <-]. destruct (IH _ _ _ El) as [ND Hin].
      split; [assumption|]. intros n. rewrite Hin. split.
      * intros [H|(l & Hl & Hc)]; [now left | right; exists l; split; [now right | exact Hc]].
      * intros [H|(l & [<-|Hl] & Hc)]; [now left | | right; eauto].
        exfalso. destruct Hc as (c & Hc & Hne & _).
        rewrite Ep in Hc. simpl in Hc. rewrite Eg in Hc. simpl in Hc. congruence.
    + destruct (int_str (c0 :: ct)) as [k|] eqn:Ei; [|discriminate].
      destruct (geo_file_loop str_strip int_str G lines
                  (if in_dec Z.eq_dec k cs then cs else cs ++ [k]))
        as [r' out'] eqn:El.
      intros [= -> <-]. destruct (IH _ _ _ El) as [ND Hin].
      assert (forall n, In n (if in_dec Z.eq_dec k cs then cs else cs ++ [k])
                        <-> In n cs \/ n = k) as Hk.
      { intros n. destruct (in_dec Z.eq_dec k cs) as [I|I].
        - split; [now left | intros [H| ->]; assumption].
        - rewrite in_app_iff. simpl. intuition. }
      split.
      * intros NDcs. apply ND. destruct (in_dec Z.eq_dec k cs) as [I|I];
          [assumption|].
        apply NoDup_app; [assumption | constructor; [tauto | constructor] |].
        intros x Hx [<-|[]]. contradiction.
      * intros n. rewrite Hin, Hk. split.
        -- intros [[H| ->]|(l & Hl & Hc)].
           ++ now left.
           ++ right. exists line. split; [now left|].
              exists (c0 :: ct). rewrite Ep. simpl. rewrite Eg. simpl. rewrite Es.
              repeat split; [discriminate | assumption].
           ++ right. exists l. split; [now right | exact Hc].
        -- intros [H|(l & [<-|Hl] & Hc)]; [now left; left | | right; eauto].
           left; right. destruct Hc as (c & Hc & _ & Hi).
           rewrite Ep in Hc. simpl in Hc. rewrite Eg in Hc. simpl in Hc.
           rewrite Es in Hc. injection Hc as <-. congruence.
Qed.

(** X15: when [parse_geo_file] returns, on a list [counties] without
    repetitions (it starts empty), the list is strictly increasing and
    holds exactly the numbers it held and the numbers [int] reads from the
    non-blank COUNTY fields of the lines; the function prints it last. *)
Theorem parse_geo_file_counties (lines : list str) (G : GeoFields)
    (counties cs : list Z) (out : list file_event) :
  NoDup counties ->
  parse_geo_file str_strip int_str lines G counties = (FReturned cs, out) ->
  StronglySorted Z.lt cs
  /\ (forall n, In n cs
                <-> In n counties
                    \/ exists line, In line lines
                                    /\ county_of str_strip int_str G line n)
  /\ exists out0, out = out0 ++ [PrintCounties cs].
Proof.
  intros ND H. unfold parse_geo_file in H.
  destruct (geo_file_loop str_strip int_str G lines counties) as [r out0] eqn:E.
  destruct r as [cs0|e]; [|discriminate]. injection H as <- <-.
  destruct (geo_file_loop_returned _ _ _ E) as [ND0 Hin].
  split; [apply list_sort_increasing; auto|].
  split; [|eauto]. intros n. rewrite In_list_sort. apply Hin.
Qed.

(** X16: when the schema has no COUNTY code (no geography document was
    read, say), [parse_geo_file] raises KeyError for COUNTY at the first
    line of a file that is not empty. *)
Theorem parse_geo_file_without_county (line : str) (rest : list str)
    (G : GeoFields) (counties : list Z) :
  ~ In COUNTY (keys G) ->
  fst (parse_geo_file str_strip int_str (line :: rest) G counties)
  = FRaised (Exn (KeyError (KStr COUNTY))).
Proof.
  intros Hn. unfold parse_geo_file. simpl.
  destruct (geo_line_loop_total line G (keys G) [] (fun c H => H))
    as (d & ev & E & _ & Hk & _).
  unfold parse_geo_line. rewrite E.
  destruct (dict_get str_eq_dec COUNTY d) as [v|] eqn:Ed; [|reflexivity].
  exfalso. apply dict_get_Some_In in Ed.
  destruct (Hk COUNTY) as [[]|H]; [|contradiction].
  change COUNTY with (fst (COUNTY, v)). now apply in_map.
Qed.

(** X17: when a code of the schema has no offsets and COUNTY is not
    before it (COUNTY is that code, or comes later), [parse_geo_file]
    prints the decoder's message and raises KeyError for COUNTY at the
    first line. *)
Theorem parse_geo_file_unranged_before_county (line : str) (rest : list str)
    (G : GeoFields) (counties : list Z) (pre post : list str) (code : str)
    (f : geofield) :
  keys G = pre ++ code :: post ->
  (forall c, In c pre ->
             exists f' a b, dict_get str_eq_dec c G = Some f' /\ has_range f' a b) ->
  dict_get str_eq_dec code G = Some f -> unranged f ->
  ~ In COUNTY pre ->
  parse_geo_file str_strip int_str (line :: rest) G counties
  = (FRaised (Exn (KeyError (KStr COUNTY))), [Decoding (PrintKeyError code f)]).
Proof.
  intros Ek Hpre Hf Hun Hn. unfold parse_geo_file. simpl.
  rewrite (@parse_geo_line_stops line G pre code post f Ek Hpre Hf Hun).
  destruct (dict_get str_eq_dec COUNTY (assign_all (geo_values line G pre) []))
    as [v|] eqn:Ed; [|reflexivity].
  exfalso. apply dict_get_Some_In in Ed.
  apply (in_map fst) in Ed. simpl in Ed.
  change (In COUNTY (keys (assign_all (geo_values line G pre) []))) in Ed.
  rewrite keys_geo_values, In_first_seen in Ed. tauto.
Qed.
End GeoFileFacts.

Lemma parse_geo_file_counties_witness :
  StronglySorted Z.lt [7; 34]
  /\ (forall n, In n [7; 34]
                <-> In n []
                    \/ exists line,
                        In line [U "NC0 34 x"; U "NC0  7 y"; U "NC0    z";
                                 U "NC0034 w"]
                        /\ county_of ascii_strip ascii_int county_schema line n)
  /\ exists out0, [PrintCounties [7; 34]] = out0 ++ [PrintCounties [7; 34]].
Proof.
  apply (@parse_geo_file_counties ascii_strip ascii_int
           [U "NC0 34 x"; U "NC0  7 y"; U "NC0    z"; U "NC0034 w"]
           county_schema [] [7; 34] [PrintCounties [7; 34]]).
  - constructor.
  - vm_compute. reflexivity.
Defined.

Lemma parse_geo_file_without_county_witness :
  fst (parse_geo_file ascii_strip ascii_int [U "NC0 34 x"] [] [])
  = FRaised (Exn (KeyError (KStr COUNTY))).
Proof.
  apply (@parse_geo_file_without_county ascii_strip ascii_int (U "NC0 34 x") [] [] []).
  simpl. tauto.
Defined.

Lemma parse_geo_file_unranged_before_county_witness :
  parse_geo_file ascii_strip ascii_int [U "NC0 34 x"]
    [(U "STATE", {| name := U "State"; start := None; end_ := None |});
     (COUNTY, {| name := U "County"; start := Some 3; end_ := Some 6 |})] []
  = (FRaised (Exn (KeyError (KStr COUNTY))),
     [Decoding (PrintKeyError (U "STATE")
                  {| name := U "State"; start := None; end_ := None |})]).
Proof.
  apply (@parse_geo_file_unranged_before_county ascii_strip ascii_int
           (U "NC0 34 x") [] _ [] [] [COUNTY] (U "STATE")).
  - reflexivity.
  - intros c [].
  - reflexivity.
  - left. reflexivity.
  - simpl. tauto.
Defined.

(** ** The queries on the headers and on the empty query *)

Lemma contains_nil {A} (dec : forall a b : A, {a = b} + {a <> b}) (s : list A) :
  contains dec s [] = true.
Proof. destruct s; reflexivity. Qed.

(** X18: every entry begins with the five headers, so [file_for_code] of a
    header code is the file number of the first entry of the catalog. *)
Theorem file_for_code_header (h : str) (fileno : Z) (cd : code_dict)
    (rest : CensusCodes) :
  entry_ok cd -> In h header_codes ->
  file_for_code h ((fileno, cd) :: rest) = Returned (Some fileno).
Proof.
  intros [Hcd _] Hh. unfold file_for_code. simpl.
  unfold get_int, getitem. simpl. destruct (Z.eq_dec fileno fileno); [|congruence].
  simpl. assert (dict_mem str_eq_dec h cd = true) as ->; [|reflexivity].
  apply dict_mem_true. rewrite <- (firstn_skipn 5 cd), Hcd.
  unfold keys. rewrite map_app. apply in_app_iff. left. exact Hh.
Qed.

Lemma file_for_code_header_witness :
  file_for_code (U "LOGRECNO")
    ((7, header_code_dict ++ [(U "P000001", U "Total population")])
       :: sample_catalog)
  = Returned (Some 7).
Proof.
  apply (@file_for_code_header (U "LOGRECNO") 7
           (header_code_dict ++ [(U "P000001", U "Total population")])
           sample_catalog).
  - split; [reflexivity|]. intros c [<-|[]]. reflexivity.
  - simpl. tauto.
Defined.

(** X19: the empty query matches every description: when lowering the
    empty string gives the empty string, [codes_for_description] returns
    every (code, description) pair of the catalog, in order. *)
Theorem codes_for_description_empty_query (lower : str -> str)
    (cat : CensusCodes) :
  lower [] = [] ->
  NoDup (keys cat) ->
  (forall fileno cd, In (fileno, cd) cat -> NoDup (keys cd)) ->
  codes_for_description lower [] cat = Returned (flat_map snd cat).
Proof.
  intros Hl ND Hcd. rewrite codes_for_description_run by assumption.
  rewrite Hl. f_equal. apply flat_map_ext. intros [fileno cd]. simpl.
  unfold matching. apply forallb_filter_id.
  apply forallb_forall. intros p _. apply contains_nil.
Qed.

Lemma codes_for_description_empty_query_witness :
  codes_for_description ascii_lower [] sample_catalog
  = Returned (flat_map snd sample_catalog).
Proof.
  apply (@codes_for_description_empty_query ascii_lower sample_catalog).
  - reflexivity.
  - vm_compute. repeat constructor; simpl; intuition discriminate.
  - intros fileno cd [[= <- <-]|[[= <- <-]|[]]]; vm_compute;
      repeat constructor; simpl; intuition discriminate.
Defined.

(** ** The faults that can escape the builders *)

Lemma saslines_line_raises l cd e :
  saslines_line l cd = Raised e -> e = UnicodeDecodeError.
Proof.
  unfold saslines_line.
  destruct (re_match pat l) as [m|] eqn:Hm; [|discriminate].
  apply pat_code in Hm as (code & desc & pre & post & H1 & H2 & _ & Hd & _).
  unfold group_decode. rewrite H1, H2, Hd. simpl.
  destruct (decode desc) eqn:E; simpl; [discriminate|].
  intros [= <-]. eapply decode_raises; eauto.
Qed.

Lemma code_dict_of_raises saslines e :
  code_dict_of saslines = Raised e -> e = UnicodeDecodeError.
Proof.
  unfold code_dict_of. generalize header_code_dict.
  induction saslines as [|l ls IH]; intros cd; simpl; [discriminate|].
  destruct (saslines_line l cd) as [cd1|e1] eqn:E; simpl; [apply IH|].
  intros [= <-]. eapply saslines_line_raises; eauto.
Qed.

(** X20: building the entry of a document can only fail by the decode
    fault of a description that is not valid UTF-8, and then some line of
    the document has a byte outside ASCII. *)
Theorem code_dict_of_only_decode_fault (saslines : list bytes) (e : exn) :
  code_dict_of saslines = Raised e ->
  e = UnicodeDecodeError
  /\ ~ (forall l, In l saslines -> ascii_bytes l).
Proof.
  intros H. split.
  - eapply code_dict_of_raises; eauto.
  - intros Hascii. destruct (code_dict_of_ascii saslines Hascii) as [cd Hcd].
    congruence.
Qed.

Lemma code_dict_of_only_decode_fault_witness :
  UnicodeDecodeError = UnicodeDecodeError
  /\ ~ (forall l, In l [B "P000001='ok'"; B "P000002='" ++ [xff; x27]] ->
                  ascii_bytes l).
Proof.
  apply (@code_dict_of_only_decode_fault
           [B "P000001='ok'"; B "P000002='" ++ [xff; x27]] UnicodeDecodeError).
  vm_compute. reflexivity.
Defined.


